(** * The elevator dispatcher of [elevator.py] and its simulator

    A shallow embedding of [ElevatorLogic] (elevator.py) and of the
    [Elevator] simulator that drives it (test_elevator.py), followed by the
    properties of the dispatcher stated in the specification.

    Python values are modelled as follows.
    - Floors are integers ([Z]).
    - A direction is the integer constant [UP = 1] or [DOWN = 2]; a value that
      may also be Python's [None] is an [option Z].
    - The three request sets are finite sets of integers ([gset Z]).
    - A method that can raise returns a [result]. *)

From stdpp Require Import base option list sets gmap sorting.
From Stdlib Require Import ZArith Lia.

Open Scope Z_scope.

(** ** Module constants *)

Definition UP : Z := 1.
Definition DOWN : Z := 2.
Definition FLOOR_COUNT : Z := 6.

(** ** Exceptions *)

Inductive exn : Type :=
  | ValueError (arg : option Z)
  | AssertionError.

Inductive result (A : Type) : Type :=
  | Ok (a : A)
  | Raise (e : exn).

Arguments Ok {A} a.
Arguments Raise {A} e.

#[global] Instance result_ret : MRet result := λ A a, Ok a.
#[global] Instance result_bind : MBind result :=
  λ A B f m, match m with Ok a => f a | Raise e => Raise e end.
#[global] Instance result_fmap : FMap result :=
  λ A B f m, match m with Ok a => Ok (f a) | Raise e => Raise e end.

(** [assert cond] *)
Definition py_assert (P : Prop) `{Decision P} : result unit :=
  if decide P then Ok tt else Raise AssertionError.

(** ** Iterating over a set

    [min(stops, key=...)] walks the set in the interpreter's iteration order,
    which the language leaves unspecified.  The order is a parameter of the
    development: any enumeration of the members, each exactly once. *)

Class SetIteration : Type := {
  set_iter : gset Z → list Z;
  set_iter_perm : ∀ s, set_iter s ≡ₚ elements s
}.

(** CPython stores a non-negative integer smaller than the size of the
    table (8 for a small set) in the slot given by its value, so a set of
    floors between 1 and [FLOOR_COUNT] is walked in ascending order.  For
    other members the order of CPython differs; this instance is used at
    floors of the building only, and every theorem holds for every
    iteration order. *)
#[global] Program Instance ascending_iteration : SetIteration :=
  {| set_iter s := merge_sort Z.le (elements s) |}.
Next Obligation. intros s. apply merge_sort_Permutation. Qed.

(** ** The builtins [min] and [max]

    Both keep the first extremal item met: [min] replaces its candidate only
    by an item whose key is strictly smaller, [max] only by a strictly larger
    one.  On an empty iterable they raise [ValueError]. *)

Fixpoint min_loop (key : Z → Z) (best : Z) (items : list Z) : Z :=
  match items with
  | [] => best
  | x :: rest => min_loop key (if key x <? key best then x else best) rest
  end.

Fixpoint max_loop (key : Z → Z) (best : Z) (items : list Z) : Z :=
  match items with
  | [] => best
  | x :: rest => max_loop key (if key best <? key x then x else best) rest
  end.

Definition py_min_key (key : Z → Z) (items : list Z) : result Z :=
  match items with
  | [] => Raise (ValueError None)
  | x :: rest => Ok (min_loop key x rest)
  end.

Definition py_min (items : list Z) : result Z := py_min_key id items.

Definition py_max (items : list Z) : result Z :=
  match items with
  | [] => Raise (ValueError None)
  | x :: rest => Ok (max_loop id x rest)
  end.

(** Truth value of a set: non-empty. *)
Definition py_bool (s : gset Z) : bool := bool_decide (s ≠ ∅).

(** ** State *)

(** The fields of an [ElevatorLogic] instance. *)
Record ElevatorLogic : Type := mkElevatorLogic {
  requested_destinations : gset Z;
  requests_going_up : gset Z;
  requests_going_down : gset Z;
  directionality : option Z
}.

(** The simulator [Elevator], holding its logic delegate.  The delegate's
    [callbacks] object reads [_current_floor] and reads and writes
    [_motor_direction] of this same record.  [motor_writes] is not a field of
    the Python object: it logs every assignment to [motor_direction], latest
    first, so that "issues no motor command" can be told apart from "writes
    the value already there". *)
Record Elevator : Type := mkElevator {
  _visited_floors : list Z;
  _current_floor : Z;
  _motor_direction : option Z;
  motor_writes : list (option Z);
  _logic_delegate : ElevatorLogic
}.

(** [ElevatorLogic.__init__] *)
Definition ElevatorLogic_init : ElevatorLogic :=
  {| requested_destinations := ∅;
     requests_going_up := ∅;
     requests_going_down := ∅;
     directionality := None |}.

(** [Elevator.__init__] *)
Definition Elevator_init (logic_delegate : ElevatorLogic) (starting_floor : Z)
  : Elevator :=
  {| _visited_floors := [starting_floor];
     _current_floor := starting_floor;
     _motor_direction := None;
     motor_writes := [];
     _logic_delegate := logic_delegate |}.

(** Field assignments. *)

Definition with_logic (f : ElevatorLogic → ElevatorLogic) (e : Elevator)
  : Elevator :=
  {| _visited_floors := _visited_floors e;
     _current_floor := _current_floor e;
     _motor_direction := _motor_direction e;
     motor_writes := motor_writes e;
     _logic_delegate := f (_logic_delegate e) |}.

Definition set_directionality (d : option Z) : Elevator → Elevator :=
  with_logic (λ self,
    {| requested_destinations := requested_destinations self;
       requests_going_up := requests_going_up self;
       requests_going_down := requests_going_down self;
       directionality := d |}).

Definition set_requested_destinations (s : gset Z) : Elevator → Elevator :=
  with_logic (λ self,
    {| requested_destinations := s;
       requests_going_up := requests_going_up self;
       requests_going_down := requests_going_down self;
       directionality := directionality self |}).

Definition set_requests_going_up (s : gset Z) : Elevator → Elevator :=
  with_logic (λ self,
    {| requested_destinations := requested_destinations self;
       requests_going_up := s;
       requests_going_down := requests_going_down self;
       directionality := directionality self |}).

Definition set_requests_going_down (s : gset Z) : Elevator → Elevator :=
  with_logic (λ self,
    {| requested_destinations := requested_destinations self;
       requests_going_up := requests_going_up self;
       requests_going_down := s;
       directionality := directionality self |}).

(** The setter of [Callbacks.motor_direction]. *)
Definition set_motor_direction (direction : option Z) (e : Elevator)
  : Elevator :=
  {| _visited_floors := _visited_floors e;
     _current_floor := _current_floor e;
     _motor_direction := direction;
     motor_writes := direction :: motor_writes e;
     _logic_delegate := _logic_delegate e |}.

(** Shorthands for the fields of the delegate. *)
Definition destinations (e : Elevator) : gset Z :=
  requested_destinations (_logic_delegate e).
Definition going_up (e : Elevator) : gset Z :=
  requests_going_up (_logic_delegate e).
Definition going_down (e : Elevator) : gset Z :=
  requests_going_down (_logic_delegate e).
Definition commitment (e : Elevator) : option Z :=
  directionality (_logic_delegate e).

(** ** ElevatorLogic *)

Section Logic.
Context `{SetIteration}.

(** [ElevatorLogic._direction_to] *)
Definition _direction_to (e : Elevator) (floor : Z) : option Z :=
  let current_floor := _current_floor e in
  if current_floor <? floor then Some UP
  else if floor <? current_floor then Some DOWN
  else None.

(** The local helpers of [_current_destination]. *)
Definition floors_up (current_floor : Z) (floors : gset Z) : gset Z :=
  filter (λ f, current_floor ≤ f) floors.

Definition floors_down (current_floor : Z) (floors : gset Z) : gset Z :=
  filter (λ f, f ≤ current_floor) floors.

Definition floor_distance (current_floor floor : Z) : Z :=
  Z.abs (current_floor - floor).

(** [ElevatorLogic._current_destination] *)
Definition _current_destination (e : Elevator) : result (option Z) :=
  let current_floor := _current_floor e in
  match commitment e with
  | None =>
      let stops := destinations e ∪ going_up e ∪ going_down e in
      if py_bool stops
      then Some <$> py_min_key (floor_distance current_floor) (set_iter stops)
      else Ok None
  | Some d =>
      if decide (d = UP) then
        let stops_up := floors_up current_floor (destinations e ∪ going_up e) in
        let returns_down := floors_up current_floor (going_down e) in
        if py_bool stops_up then Some <$> py_min (set_iter stops_up)
        else if py_bool returns_down then Some <$> py_max (set_iter returns_down)
        else Ok None
      else if decide (d = DOWN) then
        let stops_down :=
          floors_down current_floor (destinations e ∪ going_down e) in
        let returns_up := floors_down current_floor (going_up e) in
        if py_bool stops_down then Some <$> py_max (set_iter stops_down)
        else if py_bool returns_up then Some <$> py_min (set_iter returns_up)
        else Ok None
      else Raise (ValueError (Some d))
  end.

(** [ElevatorLogic.on_called] *)
Definition on_called (floor : Z) (direction : option Z) (e : Elevator)
  : result Elevator :=
  if decide (direction = Some UP) then
    Ok (set_requests_going_up ({[floor]} ∪ going_up e) e)
  else if decide (direction = Some DOWN) then
    Ok (set_requests_going_down ({[floor]} ∪ going_down e) e)
  else Raise (ValueError direction).

(** [ElevatorLogic.on_floor_selected] *)
Definition on_floor_selected (floor : Z) (e : Elevator) : Elevator :=
  if bool_decide (commitment e ≠ None)
     && bool_decide (commitment e ≠ _direction_to e floor)
  then e
  else set_requested_destinations ({[floor]} ∪ destinations e) e.

(** The loop of [on_floor_changed] that discards the current floor from the
    three sets. *)
Definition discard_floor (floor : Z) (e : Elevator) : Elevator :=
  set_requests_going_up (going_up e ∖ {[floor]})
    (set_requests_going_down (going_down e ∖ {[floor]})
      (set_requested_destinations (destinations e ∖ {[floor]}) e)).

(** [ElevatorLogic.on_floor_changed].  The arguments of the last [debug]
    call of the stopping branch are evaluated whatever [DEBUG] is, hence the
    third call of [_current_destination]. *)
Definition on_floor_changed (e : Elevator) : result Elevator :=
  let current_floor := _current_floor e in
  destination ← _current_destination e;
  match destination with
  | None => Raise AssertionError
  | Some destination =>
      if decide (current_floor = destination) then
        let e := set_motor_direction None e in
        let e := discard_floor current_floor e in
        remaining ← _current_destination e;
        match remaining with
        | None => Ok (set_directionality None e)
        | Some _ => _ ← _current_destination e; Ok e
        end
      else Ok e
  end.

(** [ElevatorLogic.on_ready] *)
Definition on_ready (e : Elevator) : result Elevator :=
  destination ← _current_destination e;
  e ← (if bool_decide (destination = None) && bool_decide (commitment e ≠ None)
       then
         let e := set_directionality None e in
         new_destination ← _current_destination e;
         match new_destination with
         | Some new_destination =>
             Ok (set_directionality (_direction_to e new_destination) e)
         | None => Ok e
         end
       else Ok e);
  destination ← _current_destination e;
  match destination with
  | Some destination =>
      match commitment e with
      | Some d => Ok (set_motor_direction (Some d) e)
      | None =>
          let d := _direction_to e destination in
          Ok (set_motor_direction d (set_directionality d e))
      end
  | None => Ok (set_directionality None e)
  end.

(** The first half of [on_ready], in the words of the specification: when no
    destination is reachable under a commitment, release it, look again
    with no commitment, and commit to the direction of what is found. *)
Definition release_reacquire (e : Elevator) : Elevator :=
  match _current_destination e, commitment e with
  | Ok None, Some _ =>
      let idle := set_directionality None e in
      match _current_destination idle with
      | Ok (Some found) => set_directionality (_direction_to idle found) idle
      | _ => idle
      end
  | _, _ => e
  end.

(** ** The simulator *)

(** The part of [Elevator.step] that moves the car by one floor. *)
Definition move (delta : Z) (e : Elevator) : Elevator :=
  {| _visited_floors := _visited_floors e ++ [_current_floor e + delta];
     _current_floor := _current_floor e + delta;
     _motor_direction := _motor_direction e;
     motor_writes := motor_writes e;
     _logic_delegate := _logic_delegate e |}.

(** [Elevator.step] *)
Definition step (e : Elevator) : result Elevator :=
  let delta :=
    if decide (_motor_direction e = Some UP) then 1
    else if decide (_motor_direction e = Some DOWN) then -1
    else 0 in
  e ← (if decide (delta ≠ 0) then on_floor_changed (move delta e)
       else on_ready e);
  _ ← py_assert (_current_floor e >= 1);
  _ ← py_assert (_current_floor e <= FLOOR_COUNT);
  Ok e.

(** [Elevator.call] and [Elevator.select_floor] *)
Definition call (floor : Z) (direction : option Z) (e : Elevator)
  : result Elevator := on_called floor direction e.

Definition select_floor (floor : Z) (e : Elevator) : result Elevator :=
  Ok (on_floor_selected floor e).

(** What a user of the simulator can do: press a hall button, press a button
    in the car, or let one time step pass. *)
Inductive event : Type :=
  | Call (floor : Z) (direction : option Z)
  | SelectFloor (floor : Z)
  | Step.

Definition apply_event (ev : event) (e : Elevator) : result Elevator :=
  match ev with
  | Call floor direction => call floor direction e
  | SelectFloor floor => select_floor floor e
  | Step => step e
  end.

(** A sequence of events, oldest first; an exception ends the run. *)
Fixpoint run (evs : list event) (e : Elevator) : result Elevator :=
  match evs with
  | [] => Ok e
  | ev :: evs => e ← apply_event ev e; run evs e
  end.

End Logic.

(** ** Vocabulary of the specification *)

(** [f] is a pending request: a member of one of the three sets. *)
Definition pending (e : Elevator) (f : Z) : Prop :=
  f ∈ destinations e ∨ f ∈ going_up e ∨ f ∈ going_down e.

(** [m] is a member of the candidates [P] at minimal distance from [c]. *)
Definition nearest_in (c : Z) (P : Z → Prop) (m : Z) : Prop :=
  P m ∧ ∀ f, P f → Z.abs (c - m) ≤ Z.abs (c - f).

(** [m] is the minimum, respectively the maximum, of the candidates [P]. *)
Definition least_in (P : Z → Prop) (m : Z) : Prop :=
  P m ∧ ∀ f, P f → m ≤ f.

Definition greatest_in (P : Z → Prop) (m : Z) : Prop :=
  P m ∧ ∀ f, P f → f ≤ m.

(** The values [directionality] and [motor_direction] take. *)
Definition is_direction (d : option Z) : Prop :=
  d = None ∨ d = Some UP ∨ d = Some DOWN.

(** The candidates of the committed cases: the stops ahead that the car
    serves on its way ("forward"), and the calls ahead for the opposite
    direction, for which it goes to the far end before it reverses
    ("turn-back"). *)
Definition forward_up (e : Elevator) (f : Z) : Prop :=
  (f ∈ destinations e ∨ f ∈ going_up e) ∧ _current_floor e ≤ f.

Definition turn_back_up (e : Elevator) (f : Z) : Prop :=
  f ∈ going_down e ∧ _current_floor e ≤ f.

Definition forward_down (e : Elevator) (f : Z) : Prop :=
  (f ∈ destinations e ∨ f ∈ going_down e) ∧ f ≤ _current_floor e.

Definition turn_back_down (e : Elevator) (f : Z) : Prop :=
  f ∈ going_up e ∧ f ≤ _current_floor e.

(** ** Runs of the simulator *)

(** The events of the fuzz test: floors between 1 and [FLOOR_COUNT], hall
    calls for [UP] or [DOWN]. *)
Definition valid_floor (f : Z) : Prop := 1 ≤ f ≤ FLOOR_COUNT.

Definition valid_event (ev : event) : Prop :=
  match ev with
  | Call floor direction =>
      valid_floor floor ∧ (direction = Some UP ∨ direction = Some DOWN)
  | SelectFloor floor => valid_floor floor
  | Step => True
  end.

(** What holds of the simulator between two events: the car and the
    requests are inside the building, a running motor runs in the committed
    direction, and a commitment has a request strictly ahead. *)
Definition consistent (e : Elevator) : Prop :=
  valid_floor (_current_floor e)
  ∧ (∀ f, pending e f → valid_floor f)
  ∧ is_direction (commitment e)
  ∧ (_motor_direction e ≠ None → _motor_direction e = commitment e)
  ∧ (commitment e = Some UP → ∃ f, pending e f ∧ _current_floor e < f)
  ∧ (commitment e = Some DOWN → ∃ f, pending e f ∧ f < _current_floor e).

(** The direct invocations of the handlers that do not report a move. *)
Inductive invocation : Type :=
  | OnReady
  | OnCalled (floor : Z) (direction : Z)
  | OnFloorSelected (floor : Z).

Definition valid_invocation (i : invocation) : Prop :=
  match i with
  | OnCalled _ direction => direction = UP ∨ direction = DOWN
  | _ => True
  end.

(** What the user of the simulator does to cause an invocation: [on_ready]
    is what a time step invokes while the motor is stopped. *)
Definition invocation_event (i : invocation) : event :=
  match i with
  | OnReady => Step
  | OnCalled floor direction => Call floor (Some direction)
  | OnFloorSelected floor => SelectFloor floor
  end.

(** The motor commands [ws] are all among [allowed]. *)
Definition commands_among (allowed : list (option Z)) (ws : list (option Z))
  : Prop :=
  Forall (λ w, w ∈ allowed) ws.

Section Runs.
Context `{SetIteration}.

(** [e] is a state of the simulator after finitely many valid events, from
    a fresh elevator at a floor of the building. *)
Definition reachable (e : Elevator) : Prop :=
  ∃ (starting_floor : Z) (evs : list event),
    valid_floor starting_floor
    ∧ Forall valid_event evs
    ∧ run evs (Elevator_init ElevatorLogic_init starting_floor) = Ok e.

(** The commitment is [dir] before each event of the run. *)
Fixpoint stays_committed (dir : Z) (evs : list event) (e : Elevator) : Prop :=
  match evs with
  | [] => True
  | ev :: evs =>
      commitment e = Some dir
      ∧ match apply_event ev e with
        | Ok e' => stays_committed dir evs e'
        | Raise _ => False
        end
  end.

Definition invoke (i : invocation) (e : Elevator) : result Elevator :=
  match i with
  | OnReady => on_ready e
  | OnCalled floor direction => on_called floor (Some direction) e
  | OnFloorSelected floor => Ok (on_floor_selected floor e)
  end.

Fixpoint invoke_all (calls : list invocation) (e : Elevator)
  : result Elevator :=
  match calls with
  | [] => Ok e
  | i :: calls => e ← invoke i e; invoke_all calls e
  end.

End Runs.

(** ** The helpers of the simulator that advance it *)

Section Advance.
Context `{SetIteration}.

(** The loop [while self._motor_direction is not None: self.step()].  The
    fuel bounds the number of iterations; [None] tells that the loop has
    not ended within it. *)
Fixpoint run_while_moving (fuel : nat) (e : Elevator)
  : option (result Elevator) :=
  match _motor_direction e with
  | None => Some (Ok e)
  | Some _ =>
      match fuel with
      | O => None
      | S fuel =>
          match step e with
          | Ok e => run_while_moving fuel e
          | Raise x => Some (Raise x)
          end
      end
  end.

(** [Elevator.run_until_stopped] *)
Definition run_until_stopped (fuel : nat) (e : Elevator)
  : option (result Elevator) :=
  match step e with
  | Ok e => run_while_moving fuel e
  | Raise x => Some (Raise x)
  end.

(** The loop of [run_until_floor] over [range(n)]: the [else] branch,
    [assert False], is taken when the range is exhausted. *)
Fixpoint run_until_floor_loop (n : nat) (floor : Z) (e : Elevator)
  : result Elevator :=
  match n with
  | O => Raise AssertionError
  | S n =>
      e ← step e;
      if decide (_current_floor e = floor) then Ok e
      else run_until_floor_loop n floor e
  end.

(** [Elevator.run_until_floor] *)
Definition run_until_floor (floor : Z) (e : Elevator) : result Elevator :=
  run_until_floor_loop 100 floor e.

(** ** The checks of [BaseElevatorTest] *)

(** [del self.e._visited_floors[:]] *)
Definition clear_visited (e : Elevator) : Elevator :=
  {| _visited_floors := [];
     _current_floor := _current_floor e;
     _motor_direction := _motor_direction e;
     motor_writes := motor_writes e;
     _logic_delegate := _logic_delegate e |}.

(** [BaseElevatorTest._assertVisited]: [assertEqual] fails with an
    [AssertionError]; the log is cleared after a successful comparison. *)
Definition _assertVisited (floors : list Z) (e : Elevator) : result Elevator :=
  if decide (floors = _visited_floors e) then Ok (clear_visited e)
  else Raise AssertionError.

(** [BaseElevatorTest.assertVisits] *)
Definition assertVisits (fuel : nat) (floors : list Z) (e : Elevator)
  : option (result Elevator) :=
  match run_until_stopped fuel e with
  | Some (Ok e) => Some (_assertVisited floors e)
  | Some (Raise x) => Some (Raise x)
  | None => None
  end.

End Advance.

(** The floors with a pending request. *)
Definition pending_floors (e : Elevator) : gset Z :=
  destinations e ∪ going_up e ∪ going_down e.

(** Idle at a floor with a pending request: the state in which [on_ready]
    does not start the motor. *)
Definition stuck (e : Elevator) : Prop :=
  commitment e = None ∧ pending e (_current_floor e).

(** Successive entries of the log of visited floors are one floor apart. *)
Fixpoint one_floor_apart (floors : list Z) : Prop :=
  match floors with
  | a :: (b :: _) as rest => Z.abs (b - a) = 1 ∧ one_floor_apart rest
  | _ => True
  end.

(** The log of visited floors ends with the current floor, moves by one
    floor at a time and stays inside the building. *)
Definition well_logged (e : Elevator) : Prop :=
  last (_visited_floors e) = Some (_current_floor e)
  ∧ one_floor_apart (_visited_floors e)
  ∧ Forall valid_floor (_visited_floors e).

(** The [k] floors met from floor [c] in direction [delta]. *)
Definition travel (c delta : Z) (k : nat) : list Z :=
  (λ i, c + delta * Z.of_nat i) <$> seq 1 k.

(** The floors at which a car committed up, respectively down, stops when
    it arrives: a destination or a call for its direction, or a call for the
    other direction with nothing pending further on. *)
Definition stops_here_up (e : Elevator) : Prop :=
  (_current_floor e ∈ destinations e ∨ _current_floor e ∈ going_up e)
  ∨ (_current_floor e ∈ going_down e
     ∧ ∀ f, pending e f → f ≤ _current_floor e).

Definition stops_here_down (e : Elevator) : Prop :=
  (_current_floor e ∈ destinations e ∨ _current_floor e ∈ going_down e)
  ∨ (_current_floor e ∈ going_up e
     ∧ ∀ f, pending e f → _current_floor e ≤ f).

(** The request for floor [f] that [e] holds in one of its sets is gone
    from that set in [e']. *)
Definition request_removed (f : Z) (e e' : Elevator) : Prop :=
  (f ∈ destinations e ∧ f ∉ destinations e')
  ∨ (f ∈ going_up e ∧ f ∉ going_up e')
  ∨ (f ∈ going_down e ∧ f ∉ going_down e').

(** An exception that a run of [evs] may raise: a failed assertion, or the
    [ValueError] of a hall call whose direction is neither [UP] nor
    [DOWN]. *)
Definition expected_exception (evs : list event) (x : exn) : Prop :=
  x = AssertionError
  ∨ ∃ floor direction,
      Call floor direction ∈ evs
      ∧ direction ≠ Some UP ∧ direction ≠ Some DOWN
      ∧ x = ValueError direction.

(** The motor runs, by [delta] floors a step. *)
Definition running (e : Elevator) (delta : Z) : Prop :=
  (_motor_direction e = Some UP ∧ delta = 1)
  ∨ (_motor_direction e = Some DOWN ∧ delta = -1).

(** The floors left in front of a car at floor [c] that moves by [delta]. *)
Definition room (delta c : Z) : Z :=
  if decide (delta = 1) then FLOOR_COUNT - c else c - 1.

(** The three request sets of [e'] are those of [e] without floor [f]. *)
Definition served (f : Z) (e e' : Elevator) : Prop :=
  destinations e' = destinations e ∖ {[f]}
  ∧ going_up e' = going_up e ∖ {[f]}
  ∧ going_down e' = going_down e ∖ {[f]}.

(** The three request sets of [e'] are those of [e]. *)
Definition same_requests (e e' : Elevator) : Prop :=
  destinations e' = destinations e
  ∧ going_up e' = going_up e
  ∧ going_down e' = going_down e.

(** A button is pressed: a hall call for [UP] or [DOWN], or a selection in
    the car. *)
Definition is_press (ev : event) : Prop :=
  match ev with
  | Call _ direction => direction = Some UP ∨ direction = Some DOWN
  | SelectFloor _ => True
  | Step => False
  end.

(** ** Sample states

    Concrete states at which the statements below are exercised. *)

(** The car, called to floor 5, has not started yet. *)
Definition sample_called : Elevator :=
  {| _visited_floors := [1];
     _current_floor := 1;
     _motor_direction := None;
     motor_writes := [];
     _logic_delegate :=
       {| requested_destinations := ∅;
          requests_going_up := ∅;
          requests_going_down := {[5]};
          directionality := None |} |}.

(** The car runs up past floor 2, with floors 3 and 5 selected and a call
    to go down waiting behind it at floor 2. *)
Definition sample_committed : Elevator :=
  {| _visited_floors := [1; 2];
     _current_floor := 2;
     _motor_direction := Some UP;
     motor_writes := [Some UP];
     _logic_delegate :=
       {| requested_destinations := {[3; 5]};
          requests_going_up := ∅;
          requests_going_down := {[2]};
          directionality := Some UP |} |}.

(** The same car one floor later, when [on_floor_changed] is invoked. *)
Definition sample_arriving : Elevator :=
  {| _visited_floors := [1; 2; 3];
     _current_floor := 3;
     _motor_direction := Some UP;
     motor_writes := [Some UP];
     _logic_delegate :=
       {| requested_destinations := {[3; 5]};
          requests_going_up := ∅;
          requests_going_down := {[2]};
          directionality := Some UP |} |}.

(** And once it has stopped at floor 3. *)
Definition sample_stopped : Elevator :=
  {| _visited_floors := [1; 2; 3];
     _current_floor := 3;
     _motor_direction := None;
     motor_writes := [None; Some UP];
     _logic_delegate :=
       {| requested_destinations := {[5]};
          requests_going_up := ∅;
          requests_going_down := {[2]};
          directionality := Some UP |} |}.

(** The car rests at floor 4 with no commitment; floors 4 and 6 are
    selected. *)
Definition sample_stuck : Elevator :=
  {| _visited_floors := [4];
     _current_floor := 4;
     _motor_direction := None;
     motor_writes := [];
     _logic_delegate :=
       {| requested_destinations := {[4; 6]};
          requests_going_up := ∅;
          requests_going_down := ∅;
          directionality := None |} |}.

(** ** The builtins *)

Lemma min_loop_spec (key : Z → Z) (items : list Z) (best : Z) :
  (min_loop key best items = best ∨ min_loop key best items ∈ items)
  ∧ key (min_loop key best items) ≤ key best
  ∧ ∀ x, x ∈ items → key (min_loop key best items) ≤ key x.
Proof.
  revert best. induction items as [|x rest IH]; intros best; simpl.
  - split; [by left|]. split; [lia|]. intros x Hx. by apply elem_of_nil in Hx.
  - destruct (IH (if key x <? key best then x else best)) as (Hin & Hle & Hall).
    destruct (Z.ltb_spec (key x) (key best)) as [Hlt|Hge].
    + split; [right; destruct Hin as [->|Hin]; [left|by right]|].
      split; [lia|]. intros y [->|Hy]%elem_of_cons; [lia|by apply Hall].
    + split; [destruct Hin as [Hin|Hin]; [by left|right; by right]|].
      split; [lia|]. intros y [->|Hy]%elem_of_cons; [lia|by apply Hall].
Qed.

Lemma max_loop_spec (key : Z → Z) (items : list Z) (best : Z) :
  (max_loop key best items = best ∨ max_loop key best items ∈ items)
  ∧ key best ≤ key (max_loop key best items)
  ∧ ∀ x, x ∈ items → key x ≤ key (max_loop key best items).
Proof.
  revert best. induction items as [|x rest IH]; intros best; simpl.
  - split; [by left|]. split; [lia|]. intros x Hx. by apply elem_of_nil in Hx.
  - destruct (IH (if key best <? key x then x else best)) as (Hin & Hle & Hall).
    destruct (Z.ltb_spec (key best) (key x)) as [Hlt|Hge].
    + split; [right; destruct Hin as [->|Hin]; [left|by right]|].
      split; [lia|]. intros y [->|Hy]%elem_of_cons; [lia|by apply Hall].
    + split; [destruct Hin as [Hin|Hin]; [by left|right; by right]|].
      split; [lia|]. intros y [->|Hy]%elem_of_cons; [lia|by apply Hall].
Qed.

Section BuiltinsOnSets.
Context `{SetIteration}.

Lemma elem_of_set_iter (s : gset Z) (x : Z) : x ∈ set_iter s ↔ x ∈ s.
Proof. by rewrite (set_iter_perm s), elem_of_elements. Qed.

Lemma py_bool_true (s : gset Z) : py_bool s = true ↔ ∃ x, x ∈ s.
Proof.
  unfold py_bool. rewrite bool_decide_eq_true. split.
  - intros Hne. by apply set_choose_L.
  - intros [x Hx] ->. set_solver.
Qed.

Lemma py_bool_false (s : gset Z) : py_bool s = false ↔ ∀ x, x ∉ s.
Proof.
  unfold py_bool. rewrite bool_decide_eq_false. split.
  - intros Hne x Hx. apply Hne. intros ->. set_solver.
  - intros Hall Hne. apply set_choose_L in Hne as [x Hx]. by apply (Hall x).
Qed.

Lemma py_min_key_set (key : Z → Z) (s : gset Z) :
  py_bool s = true →
  ∃ m, py_min_key key (set_iter s) = Ok m
       ∧ m ∈ s ∧ ∀ x, x ∈ s → key m ≤ key x.
Proof.
  intros [y Hy]%py_bool_true. apply elem_of_set_iter in Hy.
  destruct (set_iter s) as [|x rest] eqn:Hiter; [by apply elem_of_nil in Hy|].
  exists (min_loop key x rest). split; [done|].
  destruct (min_loop_spec key rest x) as (Hin & Hle & Hall). split.
  - apply elem_of_set_iter. rewrite Hiter.
    destruct Hin as [->|Hin]; [left|by right].
  - intros z Hz%elem_of_set_iter. rewrite Hiter in Hz.
    apply elem_of_cons in Hz as [->|Hz]; [done|by apply Hall].
Qed.

Lemma py_min_set (s : gset Z) :
  py_bool s = true →
  ∃ m, py_min (set_iter s) = Ok m ∧ m ∈ s ∧ ∀ x, x ∈ s → m ≤ x.
Proof. apply (py_min_key_set id). Qed.

Lemma py_max_set (s : gset Z) :
  py_bool s = true →
  ∃ m, py_max (set_iter s) = Ok m ∧ m ∈ s ∧ ∀ x, x ∈ s → x ≤ m.
Proof.
  intros [y Hy]%py_bool_true. apply elem_of_set_iter in Hy.
  destruct (set_iter s) as [|x rest] eqn:Hiter; [by apply elem_of_nil in Hy|].
  exists (max_loop id x rest). split; [done|].
  destruct (max_loop_spec id rest x) as (Hin & Hle & Hall). split.
  - apply elem_of_set_iter. rewrite Hiter.
    destruct Hin as [->|Hin]; [left|by right].
  - intros z Hz%elem_of_set_iter. rewrite Hiter in Hz.
    apply elem_of_cons in Hz as [->|Hz]; [done|by apply Hall].
Qed.

End BuiltinsOnSets.

(** ** Destination selection *)

Section Destination.
Context `{SetIteration}.

Lemma elem_of_floors_up (c : Z) (s : gset Z) (f : Z) :
  f ∈ floors_up c s ↔ f ∈ s ∧ c ≤ f.
Proof. unfold floors_up. rewrite elem_of_filter. tauto. Qed.

Lemma elem_of_floors_down (c : Z) (s : gset Z) (f : Z) :
  f ∈ floors_down c s ↔ f ∈ s ∧ f ≤ c.
Proof. unfold floors_down. rewrite elem_of_filter. tauto. Qed.

Lemma current_destination_idle (e : Elevator) :
  commitment e = None →
  ((∀ f, ¬ pending e f) ∧ _current_destination e = Ok None)
  ∨ (∃ d, _current_destination e = Ok (Some d)
          ∧ nearest_in (_current_floor e) (pending e) d).
Proof.
  intros Hdir. unfold _current_destination. rewrite Hdir.
  set (stops := destinations e ∪ going_up e ∪ going_down e).
  assert (Hmem : ∀ f, f ∈ stops ↔ pending e f).
  { intros f. unfold stops, pending. rewrite !elem_of_union. tauto. }
  destruct (py_bool stops) eqn:Hb.
  - right.
    destruct (py_min_key_set (floor_distance (_current_floor e)) stops Hb)
      as (m & -> & Hin & Hmin).
    exists m. split; [done|]. split; [by apply Hmem|].
    intros f Hf%Hmem. by apply Hmin.
  - left. split; [|done]. intros f Hf%Hmem.
    by apply (proj1 (py_bool_false stops) Hb f).
Qed.

Lemma current_destination_up (e : Elevator) :
  commitment e = Some UP →
  (∃ d, _current_destination e = Ok (Some d) ∧ least_in (forward_up e) d)
  ∨ ((∀ f, ¬ forward_up e f)
     ∧ ∃ d, _current_destination e = Ok (Some d)
            ∧ greatest_in (turn_back_up e) d)
  ∨ ((∀ f, ¬ forward_up e f) ∧ (∀ f, ¬ turn_back_up e f)
     ∧ _current_destination e = Ok None).
Proof.
  intros Hdir. unfold _current_destination. rewrite Hdir.
  rewrite decide_True by done.
  set (stops_up := floors_up _ (destinations e ∪ going_up e)).
  set (returns_down := floors_up _ (going_down e)).
  assert (Hfwd : ∀ f, f ∈ stops_up ↔ forward_up e f).
  { intros f. unfold stops_up, forward_up.
    rewrite elem_of_floors_up, elem_of_union. tauto. }
  assert (Hback : ∀ f, f ∈ returns_down ↔ turn_back_up e f).
  { intros f. unfold returns_down, turn_back_up.
    rewrite elem_of_floors_up. tauto. }
  destruct (py_bool stops_up) eqn:Hb1.
  - left. destruct (py_min_set stops_up Hb1) as (m & -> & Hin & Hmin).
    exists m. split; [done|]. split; [by apply Hfwd|].
    intros f Hf%Hfwd. by apply Hmin.
  - right.
    assert (Hnone : ∀ f, ¬ forward_up e f).
    { intros f Hf%Hfwd. by apply (proj1 (py_bool_false stops_up) Hb1 f). }
    destruct (py_bool returns_down) eqn:Hb2.
    + left. split; [done|].
      destruct (py_max_set returns_down Hb2) as (m & -> & Hin & Hmax).
      exists m. split; [done|]. split; [by apply Hback|].
      intros f Hf%Hback. by apply Hmax.
    + right. split; [done|]. split; [|done]. intros f Hf%Hback.
      by apply (proj1 (py_bool_false returns_down) Hb2 f).
Qed.

Lemma current_destination_down (e : Elevator) :
  commitment e = Some DOWN →
  (∃ d, _current_destination e = Ok (Some d) ∧ greatest_in (forward_down e) d)
  ∨ ((∀ f, ¬ forward_down e f)
     ∧ ∃ d, _current_destination e = Ok (Some d)
            ∧ least_in (turn_back_down e) d)
  ∨ ((∀ f, ¬ forward_down e f) ∧ (∀ f, ¬ turn_back_down e f)
     ∧ _current_destination e = Ok None).
Proof.
  intros Hdir. unfold _current_destination. rewrite Hdir.
  rewrite decide_False by done. rewrite decide_True by done.
  set (stops_down := floors_down _ (destinations e ∪ going_down e)).
  set (returns_up := floors_down _ (going_up e)).
  assert (Hfwd : ∀ f, f ∈ stops_down ↔ forward_down e f).
  { intros f. unfold stops_down, forward_down.
    rewrite elem_of_floors_down, elem_of_union. tauto. }
  assert (Hback : ∀ f, f ∈ returns_up ↔ turn_back_down e f).
  { intros f. unfold returns_up, turn_back_down.
    rewrite elem_of_floors_down. tauto. }
  destruct (py_bool stops_down) eqn:Hb1.
  - left. destruct (py_max_set stops_down Hb1) as (m & -> & Hin & Hmax).
    exists m. split; [done|]. split; [by apply Hfwd|].
    intros f Hf%Hfwd. by apply Hmax.
  - right.
    assert (Hnone : ∀ f, ¬ forward_down e f).
    { intros f Hf%Hfwd. by apply (proj1 (py_bool_false stops_down) Hb1 f). }
    destruct (py_bool returns_up) eqn:Hb2.
    + left. split; [done|].
      destruct (py_min_set returns_up Hb2) as (m & -> & Hin & Hmin).
      exists m. split; [done|]. split; [by apply Hback|].
      intros f Hf%Hback. by apply Hmin.
    + right. split; [done|]. split; [|done]. intros f Hf%Hback.
      by apply (proj1 (py_bool_false returns_up) Hb2 f).
Qed.

Lemma is_direction_cases (d : Z) :
  is_direction (Some d) → d = UP ∨ d = DOWN.
Proof. intros [?|[?|?]]; simplify_eq; auto. Qed.

(** With a well-formed commitment the selection never raises. *)
Lemma current_destination_ok (e : Elevator) :
  is_direction (commitment e) → ∃ o, _current_destination e = Ok o.
Proof.
  intros Hdir. destruct (commitment e) as [d|] eqn:Hc.
  - destruct (is_direction_cases d Hdir) as [->| ->].
    + destruct (current_destination_up e Hc)
        as [(d & -> & _)|[(_ & d & -> & _)|(_ & _ & ->)]]; eauto.
    + destruct (current_destination_down e Hc)
        as [(d & -> & _)|[(_ & d & -> & _)|(_ & _ & ->)]]; eauto.
  - destruct (current_destination_idle e Hc) as [(_ & ->)|(d & -> & _)]; eauto.
Qed.

(** A result of the selection comes from a well-formed commitment. *)
Lemma current_destination_direction (e : Elevator) (o : option Z) :
  _current_destination e = Ok o → is_direction (commitment e).
Proof.
  unfold _current_destination, is_direction.
  destruct (commitment e) as [d|]; [|auto].
  destruct (decide (d = UP)) as [->|]; [auto|].
  destruct (decide (d = DOWN)) as [->|]; [auto|done].
Qed.

(** A destination is a pending request, ahead of the car when committed. *)
Lemma current_destination_some (e : Elevator) (d : Z) :
  _current_destination e = Ok (Some d) →
  pending e d
  ∧ (commitment e = Some UP → _current_floor e ≤ d)
  ∧ (commitment e = Some DOWN → d ≤ _current_floor e).
Proof.
  intros Hd. pose proof (current_destination_direction e _ Hd) as Hdir.
  destruct (commitment e) as [dir|] eqn:Hc.
  - destruct (is_direction_cases dir Hdir) as [->| ->].
    + destruct (current_destination_up e Hc)
        as [(d' & Hd' & Hin & _)|[(_ & d' & Hd' & Hin & _)|(_ & _ & Hd')]];
        rewrite Hd in Hd'; simplify_eq;
        unfold forward_up, turn_back_up, pending in *;
        (split; [tauto|]); (split; [tauto|done]).
    + destruct (current_destination_down e Hc)
        as [(d' & Hd' & Hin & _)|[(_ & d' & Hd' & Hin & _)|(_ & _ & Hd')]];
        rewrite Hd in Hd'; simplify_eq;
        unfold forward_down, turn_back_down, pending in *;
        (split; [tauto|]); (split; [done|tauto]).
  - destruct (current_destination_idle e Hc) as [(_ & Hd')|(d' & Hd' & Hin & _)];
      rewrite Hd in Hd'; simplify_eq. done.
Qed.

(** No destination: nothing is pending, or everything pending is behind. *)
Lemma current_destination_none (e : Elevator) (f : Z) :
  _current_destination e = Ok None →
  pending e f →
  (commitment e = Some UP ∧ f < _current_floor e)
  ∨ (commitment e = Some DOWN ∧ _current_floor e < f).
Proof.
  intros Hd Hf. pose proof (current_destination_direction e _ Hd) as Hdir.
  destruct (commitment e) as [dir|] eqn:Hc.
  - destruct (is_direction_cases dir Hdir) as [->| ->].
    + left. split; [done|].
      destruct (current_destination_up e Hc)
        as [(d' & Hd' & _)|[(_ & d' & Hd' & _)|(Hfwd & Hback & _)]];
        [rewrite Hd in Hd'; simplify_eq..|].
      destruct (Z.lt_ge_cases f (_current_floor e)) as [|Hge]; [done|].
      exfalso. unfold pending in Hf.
      destruct Hf as [Hf|[Hf|Hf]];
        [apply (Hfwd f)|apply (Hfwd f)|apply (Hback f)];
        unfold forward_up, turn_back_up; tauto.
    + right. split; [done|].
      destruct (current_destination_down e Hc)
        as [(d' & Hd' & _)|[(_ & d' & Hd' & _)|(Hfwd & Hback & _)]];
        [rewrite Hd in Hd'; simplify_eq..|].
      destruct (Z.lt_ge_cases (_current_floor e) f) as [|Hge]; [done|].
      exfalso. unfold pending in Hf.
      destruct Hf as [Hf|[Hf|Hf]];
        [apply (Hfwd f)|apply (Hback f)|apply (Hfwd f)];
        unfold forward_down, turn_back_down; tauto.
  - exfalso.
    destruct (current_destination_idle e Hc) as [(Hnone & _)|(d' & Hd' & _)];
      [by apply (Hnone f)|rewrite Hd in Hd'; simplify_eq].
Qed.

(** With no commitment and a request at the current floor, the destination
    is the current floor: its distance, zero, is the strict minimum. *)
Lemma current_destination_here (e : Elevator) :
  commitment e = None →
  pending e (_current_floor e) →
  _current_destination e = Ok (Some (_current_floor e)).
Proof.
  intros Hc Hhere.
  destruct (current_destination_idle e Hc) as [(Hnone & _)|(d & -> & _ & Hmin)];
    [by destruct (Hnone _ Hhere)|].
  specialize (Hmin _ Hhere). do 2 f_equal. lia.
Qed.

End Destination.

(** ** The claims on the event handlers *)

Section Handlers.
Context `{SetIteration}.

(** C1. [_current_destination] returns: with no commitment, none when the
    three sets are empty and otherwise a pending floor at minimal distance
    from the current floor; committed up, the lowest forward candidate if
    there is one, else the highest turn-back candidate if there is one, else
    none; committed down, symmetrically the highest forward candidate, else
    the lowest turn-back candidate, else none. *)
Theorem current_destination_selects (e : Elevator) :
  (commitment e = None →
     ((∀ f, ¬ pending e f) ∧ _current_destination e = Ok None)
     ∨ (∃ d, _current_destination e = Ok (Some d)
             ∧ nearest_in (_current_floor e) (pending e) d))
  ∧ (commitment e = Some UP →
       (∃ d, _current_destination e = Ok (Some d) ∧ least_in (forward_up e) d)
       ∨ ((∀ f, ¬ forward_up e f)
          ∧ ∃ d, _current_destination e = Ok (Some d)
                 ∧ greatest_in (turn_back_up e) d)
       ∨ ((∀ f, ¬ forward_up e f) ∧ (∀ f, ¬ turn_back_up e f)
          ∧ _current_destination e = Ok None))
  ∧ (commitment e = Some DOWN →
       (∃ d, _current_destination e = Ok (Some d)
             ∧ greatest_in (forward_down e) d)
       ∨ ((∀ f, ¬ forward_down e f)
          ∧ ∃ d, _current_destination e = Ok (Some d)
                 ∧ least_in (turn_back_down e) d)
       ∨ ((∀ f, ¬ forward_down e f) ∧ (∀ f, ¬ turn_back_down e f)
          ∧ _current_destination e = Ok None)).
Proof.
  split; [apply current_destination_idle|].
  split; [apply current_destination_up|apply current_destination_down].
Qed.

Lemma on_floor_changed_pass (e : Elevator) (d : Z) :
  _current_destination e = Ok (Some d) →
  _current_floor e ≠ d →
  on_floor_changed e = Ok e.
Proof.
  intros Hd Hne. unfold on_floor_changed. rewrite Hd. simpl.
  by rewrite decide_False.
Qed.

Lemma on_floor_changed_stop (e : Elevator) :
  _current_destination e = Ok (Some (_current_floor e)) →
  let stopped := discard_floor (_current_floor e) (set_motor_direction None e) in
  (_current_destination stopped = Ok None
   ∧ on_floor_changed e = Ok (set_directionality None stopped))
  ∨ (∃ next, _current_destination stopped = Ok (Some next)
             ∧ on_floor_changed e = Ok stopped).
Proof.
  intros Hd stopped. unfold on_floor_changed. rewrite Hd. simpl.
  rewrite decide_True by done. fold stopped.
  destruct (current_destination_ok stopped) as [[next|] Hnext].
  { exact (current_destination_direction e _ Hd). }
  - right. exists next. split; [done|]. by rewrite Hnext.
  - left. split; [done|]. by rewrite Hnext.
Qed.

(** C2. When a destination is computable, [on_floor_changed] at the
    destination writes the motor command [None], removes the current floor
    from the three sets, recomputes the destination under the same
    commitment and releases the commitment exactly when nothing remains;
    away from the destination it changes nothing and writes no command. *)
Theorem on_floor_changed_stops_or_passes (e : Elevator) (d : Z) :
  _current_destination e = Ok (Some d) →
  let here := _current_floor e in
  let stopped (commit : option Z) :=
    {| _visited_floors := _visited_floors e;
       _current_floor := here;
       _motor_direction := None;
       motor_writes := None :: motor_writes e;
       _logic_delegate :=
         {| requested_destinations := destinations e ∖ {[here]};
            requests_going_up := going_up e ∖ {[here]};
            requests_going_down := going_down e ∖ {[here]};
            directionality := commit |} |} in
  (here = d →
     (_current_destination (stopped (commitment e)) = Ok None
      ∧ on_floor_changed e = Ok (stopped None))
     ∨ (∃ next, _current_destination (stopped (commitment e)) = Ok (Some next)
                ∧ on_floor_changed e = Ok (stopped (commitment e))))
  ∧ (here ≠ d → on_floor_changed e = Ok e).
Proof.
  intros Hd here stopped. split; intros Hhere.
  - subst d. exact (on_floor_changed_stop e Hd).
  - by apply (on_floor_changed_pass e d).
Qed.

(** The direction to a floor is a well-formed direction. *)
Lemma direction_to_is_direction (e : Elevator) (f : Z) :
  is_direction (_direction_to e f).
Proof.
  unfold _direction_to, is_direction.
  destruct (_ <? _); [auto|]. destruct (_ <? _); auto.
Qed.

Lemma direction_to_up (e : Elevator) (f : Z) :
  _direction_to e f = Some UP ↔ _current_floor e < f.
Proof.
  unfold _direction_to.
  destruct (Z.ltb_spec (_current_floor e) f); [done|].
  destruct (Z.ltb_spec f (_current_floor e)); split; (done || lia).
Qed.

Lemma direction_to_down (e : Elevator) (f : Z) :
  _direction_to e f = Some DOWN ↔ f < _current_floor e.
Proof.
  unfold _direction_to.
  destruct (Z.ltb_spec (_current_floor e) f); [split; (done || lia)|].
  destruct (Z.ltb_spec f (_current_floor e)); split; (done || lia).
Qed.

Lemma direction_to_none (e : Elevator) (f : Z) :
  _direction_to e f = None ↔ f = _current_floor e.
Proof.
  unfold _direction_to.
  destruct (Z.ltb_spec (_current_floor e) f); [split; (done || lia)|].
  destruct (Z.ltb_spec f (_current_floor e)); split; (done || lia).
Qed.

(** Assigning to [directionality] the value it holds changes nothing. *)
Lemma set_directionality_same (e : Elevator) :
  set_directionality (commitment e) e = e.
Proof. by destruct e as [? ? ? ? []]. Qed.

(** After the release and re-acquire step the commitment is well formed,
    and a commitment it holds has a destination. *)
Lemma release_reacquire_direction (e : Elevator) :
  is_direction (commitment e) → is_direction (commitment (release_reacquire e)).
Proof.
  intros Hdir. unfold release_reacquire.
  destruct (_current_destination e) as [[d|]|]; [done| |done].
  destruct (commitment e) eqn:Hc; [|by rewrite Hc].
  destruct (_current_destination (set_directionality None e)) as [[found|]|];
    [apply direction_to_is_direction|by left..].
Qed.

Lemma release_reacquire_none (e : Elevator) :
  _current_destination (release_reacquire e) = Ok None →
  commitment (release_reacquire e) = None.
Proof.
  unfold release_reacquire.
  destruct (_current_destination e) as [[d|]|] eqn:Hd;
    [by rewrite Hd..| |by rewrite Hd].
  destruct (commitment e) as [dir|] eqn:Hc; [|done].
  set (idle := set_directionality None e).
  destruct (_current_destination idle) as [[found|]|] eqn:Hfound; [|done..].
  intros Hnone.
  destruct (current_destination_some idle found Hfound) as (Hpend & _).
  destruct (current_destination_none _ found Hnone Hpend) as [[Hup Hlt]|[Hdn Hlt]].
  - apply (direction_to_up idle found) in Hup. simpl in *. lia.
  - apply (direction_to_down idle found) in Hdn. simpl in *. lia.
Qed.

Lemma on_ready_eq (e : Elevator) :
  is_direction (commitment e) →
  ∃ o, _current_destination (release_reacquire e) = Ok o
    ∧ on_ready e =
        match o with
        | Some destination =>
            match commitment (release_reacquire e) with
            | Some d => Ok (set_motor_direction (Some d) (release_reacquire e))
            | None =>
                let d := _direction_to (release_reacquire e) destination in
                Ok (set_motor_direction d
                      (set_directionality d (release_reacquire e)))
            end
        | None => Ok (set_directionality None (release_reacquire e))
        end.
Proof.
  intros Hdir.
  destruct (current_destination_ok _ (release_reacquire_direction e Hdir))
    as [o Ho].
  exists o. split; [done|].
  unfold on_ready. revert Ho. unfold release_reacquire.
  destruct (current_destination_ok e Hdir) as [o0 Ho0]. rewrite Ho0. simpl.
  destruct o0 as [d0|]; simpl.
  - by intros ->.
  - destruct (commitment e) as [dir|] eqn:Hc; simpl.
    + destruct (current_destination_ok (set_directionality None e))
        as [o1 Ho1]; [by left|].
      rewrite Ho1. simpl. destruct o1 as [found|]; simpl; by intros ->.
    + by intros ->.
Qed.

(** The release and re-acquire step, field by field: the car, the log, the
    motor and the requests are those of [e], and the commitment is released
    when it has no destination, then taken again for the direction of the
    destination found without it. *)
Lemma release_reacquire_fields (e : Elevator) :
  release_reacquire e =
    {| _visited_floors := _visited_floors e;
       _current_floor := _current_floor e;
       _motor_direction := _motor_direction e;
       motor_writes := motor_writes e;
       _logic_delegate :=
         {| requested_destinations := destinations e;
            requests_going_up := going_up e;
            requests_going_down := going_down e;
            directionality :=
              match _current_destination e, commitment e with
              | Ok None, Some _ =>
                  match
                    _current_destination
                      {| _visited_floors := _visited_floors e;
                         _current_floor := _current_floor e;
                         _motor_direction := _motor_direction e;
                         motor_writes := motor_writes e;
                         _logic_delegate :=
                           {| requested_destinations := destinations e;
                              requests_going_up := going_up e;
                              requests_going_down := going_down e;
                              directionality := None |} |}
                  with
                  | Ok (Some found) =>
                      if decide (_current_floor e < found) then Some UP
                      else if decide (found < _current_floor e) then Some DOWN
                      else None
                  | _ => None
                  end
              | _, _ => commitment e
              end |} |}.
Proof.
  unfold release_reacquire.
  destruct (_current_destination e) as [[d|]|x];
    [by destruct e as [? ? ? ? []]| |by destruct e as [? ? ? ? []]].
  destruct (commitment e) as [dir|] eqn:Hc;
    [|destruct e as [? ? ? ? []]; unfold commitment in Hc; simpl in Hc;
      by subst].
  change (set_directionality None e) with
    {| _visited_floors := _visited_floors e;
       _current_floor := _current_floor e;
       _motor_direction := _motor_direction e;
       motor_writes := motor_writes e;
       _logic_delegate :=
         {| requested_destinations := destinations e;
            requests_going_up := going_up e;
            requests_going_down := going_down e;
            directionality := None |} |}.
  match goal with
  | |- context [_current_destination ?idle] =>
      destruct (_current_destination idle) as [[found|]|]; [|done..]
  end.
  unfold set_directionality, with_logic, _direction_to. simpl.
  do 3 f_equal.
  destruct (Z.ltb_spec (_current_floor e) found);
    [by rewrite decide_True|rewrite decide_False by lia].
  destruct (Z.ltb_spec found (_current_floor e));
    [by rewrite decide_True|by rewrite decide_False by lia].
Qed.

(** C3. [on_ready] first releases and re-acquires the commitment: if no
    destination is computable under a commitment, the commitment is set to
    [None], the destination is recomputed, and if there is one the
    commitment is set to the direction to it.  It then recomputes the
    destination: with a destination and a commitment it writes the
    commitment as the motor command; with a destination and no commitment
    it commits to the direction to the destination and writes it; with no
    destination the commitment is [None], stays [None], and no motor
    command is written.  The car, the log and the requests never change. *)
Theorem on_ready_decides (e : Elevator) :
  is_direction (commitment e) →
  let state (motor : option Z) (writes : list (option Z))
            (commit : option Z) :=
    {| _visited_floors := _visited_floors e;
       _current_floor := _current_floor e;
       _motor_direction := motor;
       motor_writes := writes;
       _logic_delegate :=
         {| requested_destinations := destinations e;
            requests_going_up := going_up e;
            requests_going_down := going_down e;
            directionality := commit |} |} in
  let direction_to (floor : Z) : option Z :=
    if decide (_current_floor e < floor) then Some UP
    else if decide (floor < _current_floor e) then Some DOWN
    else None in
  let unmoved := state (_motor_direction e) (motor_writes e) in
  let reacquired : option Z :=
    match _current_destination e, commitment e with
    | Ok None, Some _ =>
        match _current_destination (unmoved None) with
        | Ok (Some found) => direction_to found
        | _ => None
        end
    | _, _ => commitment e
    end in
  match _current_destination (unmoved reacquired) with
  | Ok (Some destination) =>
      match reacquired with
      | Some d =>
          on_ready e
          = Ok (state (Some d) (Some d :: motor_writes e) (Some d))
      | None =>
          on_ready e
          = Ok (state (direction_to destination)
                      (direction_to destination :: motor_writes e)
                      (direction_to destination))
      end
  | Ok None => reacquired = None ∧ on_ready e = Ok (unmoved None)
  | Raise _ => False
  end.
Proof.
  intros Hdir state direction_to unmoved reacquired.
  assert (release_reacquire e = unmoved reacquired) as Hrel
    by apply release_reacquire_fields.
  destruct (on_ready_eq e Hdir) as (o & Ho & Hstep).
  pose proof (release_reacquire_none e) as Hnone.
  rewrite Hrel in Ho, Hstep, Hnone. rewrite Ho, Hstep.
  change (commitment (unmoved reacquired)) with reacquired in *.
  destruct o as [destination|].
  - destruct reacquired as [d|]; [reflexivity|].
    unfold _direction_to, direction_to, state, unmoved. simpl.
    destruct (Z.ltb_spec (_current_floor e) destination);
      [by rewrite decide_True|rewrite decide_False by lia].
    destruct (Z.ltb_spec destination (_current_floor e));
      [by rewrite decide_True|by rewrite decide_False by lia].
  - split; [by apply Hnone|reflexivity].
Qed.

(** C4. While committed, [on_floor_selected] drops a floor whose direction
    from the current floor differs from the commitment, the current floor
    included: the state is unchanged and nothing is raised.  Otherwise it
    adds the floor to the destination set and changes nothing else. *)
Theorem on_floor_selected_drops_or_adds (e : Elevator) (f : Z) :
  (_direction_to e f =
     if decide (_current_floor e < f) then Some UP
     else if decide (f < _current_floor e) then Some DOWN
     else None)
  ∧ (commitment e ≠ None → _direction_to e f ≠ commitment e →
     select_floor f e = Ok e)
  ∧ (commitment e ≠ None → select_floor (_current_floor e) e = Ok e)
  ∧ (commitment e = None ∨ _direction_to e f = commitment e →
     select_floor f e =
       Ok {| _visited_floors := _visited_floors e;
             _current_floor := _current_floor e;
             _motor_direction := _motor_direction e;
             motor_writes := motor_writes e;
             _logic_delegate :=
               {| requested_destinations := {[f]} ∪ destinations e;
                  requests_going_up := going_up e;
                  requests_going_down := going_down e;
                  directionality := commitment e |} |}).
Proof.
  split; [|split; [|split]].
  - unfold _direction_to.
    destruct (Z.ltb_spec (_current_floor e) f);
      [by rewrite decide_True|rewrite decide_False by lia].
    destruct (Z.ltb_spec f (_current_floor e));
      [by rewrite decide_True|by rewrite decide_False by lia].
  - intros Hc Hne. unfold select_floor, on_floor_selected.
    rewrite !bool_decide_eq_true_2; done.
  - intros Hc. unfold select_floor, on_floor_selected.
    rewrite !bool_decide_eq_true_2; [done| |done].
    rewrite (proj2 (direction_to_none e (_current_floor e))); done.
  - intros Hc. unfold select_floor, on_floor_selected.
    destruct Hc as [Hc|Hc].
    + rewrite (bool_decide_eq_false_2 (commitment e ≠ None)); [done|].
      intros Hne. by apply Hne.
    + rewrite (bool_decide_eq_false_2 (commitment e ≠ _direction_to e f));
        [by rewrite andb_false_r|].
      intros Hne. by apply Hne.
Qed.

(** C10. [on_called] with [UP] adds the floor to the up calls, with [DOWN]
    to the down calls, whatever the commitment and the position, changes
    nothing else and writes no motor command; with any other direction it
    raises [ValueError] and records nothing. *)
Theorem on_called_records_or_rejects
    (e : Elevator) (floor : Z) (direction : option Z) :
  (direction = Some UP →
     on_called floor direction e =
       Ok {| _visited_floors := _visited_floors e;
             _current_floor := _current_floor e;
             _motor_direction := _motor_direction e;
             motor_writes := motor_writes e;
             _logic_delegate :=
               {| requested_destinations := destinations e;
                  requests_going_up := {[floor]} ∪ going_up e;
                  requests_going_down := going_down e;
                  directionality := commitment e |} |})
  ∧ (direction = Some DOWN →
     on_called floor direction e =
       Ok {| _visited_floors := _visited_floors e;
             _current_floor := _current_floor e;
             _motor_direction := _motor_direction e;
             motor_writes := motor_writes e;
             _logic_delegate :=
               {| requested_destinations := destinations e;
                  requests_going_up := going_up e;
                  requests_going_down := {[floor]} ∪ going_down e;
                  directionality := commitment e |} |})
  ∧ (direction ≠ Some UP → direction ≠ Some DOWN →
     on_called floor direction e = Raise (ValueError direction)).
Proof.
  unfold on_called. split; [|split].
  - intros ->. by rewrite decide_True.
  - intros ->. rewrite decide_False by done. by rewrite decide_True.
  - intros Hup Hdown. by rewrite !decide_False.
Qed.

(** A floor that is not pending is not the destination, so
    [on_floor_changed] there does not stop. *)
Lemma not_pending_not_destination (e : Elevator) :
  ¬ pending e (_current_floor e) →
  _current_destination e ≠ Ok (Some (_current_floor e)).
Proof. intros Hnot Hd. by destruct (current_destination_some e _ Hd). Qed.

Lemma on_floor_changed_elsewhere (e : Elevator) :
  _current_destination e ≠ Ok (Some (_current_floor e)) →
  on_floor_changed e = Ok e ∨ ∃ x, on_floor_changed e = Raise x.
Proof.
  intros Hne. unfold on_floor_changed.
  destruct (_current_destination e) as [[d|]|x]; simpl; [|eauto..].
  destruct (decide (_current_floor e = d)) as [Heq|]; [|by left].
  by rewrite Heq in Hne.
Qed.

Lemma pending_discard_floor (floor : Z) (e : Elevator) (f : Z) :
  pending (discard_floor floor e) f ↔ pending e f ∧ f ≠ floor.
Proof.
  unfold pending, discard_floor, destinations, going_up, going_down. simpl.
  rewrite !elem_of_difference, !elem_of_singleton. tauto.
Qed.

(** C9. Stopping at a floor removes it from the three sets; in the state
    that results, whatever the commitment, the destination is another floor
    or none, and [on_floor_changed] at the same floor does not stop again:
    it changes nothing, or fails for want of a destination. *)
Theorem stop_is_idempotent (e : Elevator) :
  _current_destination e = Ok (Some (_current_floor e)) →
  ∃ e', on_floor_changed e = Ok e'
    ∧ _current_floor e' = _current_floor e
    ∧ destinations e' = destinations e ∖ {[_current_floor e]}
    ∧ going_up e' = going_up e ∖ {[_current_floor e]}
    ∧ going_down e' = going_down e ∖ {[_current_floor e]}
    ∧ ¬ pending e' (_current_floor e)
    ∧ ∀ dir,
        _current_destination (set_directionality dir e')
          ≠ Ok (Some (_current_floor e))
        ∧ (on_floor_changed (set_directionality dir e')
             = Ok (set_directionality dir e')
           ∨ ∃ x, on_floor_changed (set_directionality dir e') = Raise x).
Proof.
  intros Hd.
  set (stopped := discard_floor (_current_floor e) (set_motor_direction None e)).
  assert (Hgone : ∀ dir,
    ¬ pending (set_directionality dir stopped) (_current_floor e)).
  { intros dir Hp.
    assert (pending stopped (_current_floor e)) as Hp' by exact Hp.
    apply pending_discard_floor in Hp'. by destruct Hp'. }
  assert (Hagain : ∀ dir,
    _current_destination (set_directionality dir stopped)
      ≠ Ok (Some (_current_floor e))
    ∧ (on_floor_changed (set_directionality dir stopped)
         = Ok (set_directionality dir stopped)
       ∨ ∃ x, on_floor_changed (set_directionality dir stopped) = Raise x)).
  { intros dir.
    pose proof (not_pending_not_destination _ (Hgone dir)) as Hne.
    split; [exact Hne|]. by apply on_floor_changed_elsewhere. }
  destruct (on_floor_changed_stop e Hd) as [(_ & ->)|(next & _ & ->)].
  - exists (set_directionality None stopped).
    do 5 (split; [done|]). split; [apply Hgone|]. exact Hagain.
  - exists stopped. do 5 (split; [done|]).
    split; [|exact Hagain].
    intros Hp. apply pending_discard_floor in Hp. by destruct Hp.
Qed.

(** *** Idle at a floor with a pending request *)

Lemma on_ready_here (e : Elevator) :
  commitment e = None →
  pending e (_current_floor e) →
  on_ready e = Ok (set_motor_direction None e).
Proof.
  intros Hc Hhere.
  pose proof (current_destination_here e Hc Hhere) as Hd.
  unfold on_ready. rewrite Hd. simpl. rewrite Hd. simpl. rewrite Hc.
  rewrite (proj2 (direction_to_none e (_current_floor e)) eq_refl).
  rewrite <- Hc at 2. by rewrite set_directionality_same.
Qed.

Lemma invoke_here (i : invocation) (e : Elevator) :
  commitment e = None →
  pending e (_current_floor e) →
  valid_invocation i →
  ∃ e' ws, invoke i e = Ok e'
    ∧ _current_floor e' = _current_floor e
    ∧ _visited_floors e' = _visited_floors e
    ∧ commitment e' = None
    ∧ motor_writes e' = ws ++ motor_writes e
    ∧ commands_among [None] ws
    ∧ (_motor_direction e = None → _motor_direction e' = None)
    ∧ destinations e ⊆ destinations e'
    ∧ going_up e ⊆ going_up e'
    ∧ going_down e ⊆ going_down e'.
Proof.
  intros Hc Hhere Hvalid. destruct i as [|floor direction|floor]; simpl.
  - rewrite (on_ready_here e Hc Hhere).
    exists (set_motor_direction None e), [None].
    do 5 (split; [done|]).
    split; [apply Forall_singleton; by left|done].
  - unfold on_called. destruct Hvalid as [-> | ->].
    + rewrite decide_True by done. eexists _, []. split; [done|].
      do 4 (split; [done|]). split; [by apply Forall_nil|].
      split; [done|]. split; [done|]. split; [|done].
      unfold going_up at 2. simpl. apply union_subseteq_r.
    + rewrite decide_False by done. rewrite decide_True by done.
      eexists _, []. split; [done|].
      do 4 (split; [done|]). split; [by apply Forall_nil|].
      split; [done|]. split; [done|]. split; [done|].
      unfold going_down at 2. simpl. apply union_subseteq_r.
  - unfold on_floor_selected. rewrite Hc. simpl.
    eexists _, []. split; [done|].
    do 4 (split; [done|]). split; [by apply Forall_nil|].
    split; [done|]. split; [|done].
    unfold destinations at 2. simpl. apply union_subseteq_r.
Qed.

(** In the simulator, stopped at such a floor, the events run exactly these
    invocations: a time step invokes [on_ready], never [on_floor_changed]. *)
Lemma run_here (calls : list invocation) (e : Elevator) :
  commitment e = None →
  pending e (_current_floor e) →
  Forall valid_invocation calls →
  _motor_direction e = None →
  1 ≤ _current_floor e ≤ FLOOR_COUNT →
  run (invocation_event <$> calls) e = invoke_all calls e.
Proof.
  intros Hc Hhere Hvalid. revert e Hc Hhere.
  induction Hvalid as [|i calls Hi _ IH]; intros e Hc Hhere Hm Hfloor;
    [done|].
  destruct (invoke_here i e Hc Hhere Hi)
    as (e1 & ws1 & He1 & Hfl & _ & Hc1 & _ & _ & Hm1 & Hd & Hu & Hdn).
  assert (apply_event (invocation_event i) e = invoke i e) as Hsame.
  { destruct i as [|floor direction|floor]; [|done..].
    simpl. unfold step. rewrite Hm. simpl.
    simpl in He1. rewrite He1. simpl. unfold py_assert.
    rewrite decide_True by lia. simpl. by rewrite decide_True by lia. }
  rewrite fmap_cons. simpl. rewrite Hsame, He1. simpl.
  apply IH; [done| |by apply Hm1|by rewrite Hfl].
  rewrite Hfl. unfold pending in *.
  destruct Hhere as [Hp|[Hp|Hp]];
    [left; by apply Hd|right; left; by apply Hu|right; right; by apply Hdn].
Qed.

(** C7. With no commitment and a pending request at the current floor,
    [_current_destination] returns the current floor, [on_ready] writes the
    motor command [None] and keeps the commitment [None]; whatever sequence
    of [on_ready], [on_called] and [on_floor_selected] follows, the car
    stays at its floor, every motor command is [None], and no request is
    ever removed from a set.  In the simulator, with the motor stopped, the
    corresponding events run exactly these invocations, so that
    [on_floor_changed] is never invoked. *)
Theorem idle_at_pending_floor_is_stuck
    (e : Elevator) (calls : list invocation) :
  commitment e = None →
  pending e (_current_floor e) →
  Forall valid_invocation calls →
  _current_destination e = Ok (Some (_current_floor e))
  ∧ _direction_to e (_current_floor e) = None
  ∧ on_ready e
    = Ok {| _visited_floors := _visited_floors e;
            _current_floor := _current_floor e;
            _motor_direction := None;
            motor_writes := None :: motor_writes e;
            _logic_delegate := _logic_delegate e |}
  ∧ (∃ e' ws, invoke_all calls e = Ok e'
      ∧ _current_floor e' = _current_floor e
      ∧ _visited_floors e' = _visited_floors e
      ∧ commitment e' = None
      ∧ motor_writes e' = ws ++ motor_writes e
      ∧ commands_among [None] ws
      ∧ (_motor_direction e = None → _motor_direction e' = None)
      ∧ destinations e ⊆ destinations e'
      ∧ going_up e ⊆ going_up e'
      ∧ going_down e ⊆ going_down e')
  ∧ (_motor_direction e = None →
     1 ≤ _current_floor e ≤ FLOOR_COUNT →
     run (invocation_event <$> calls) e = invoke_all calls e).
Proof.
  intros Hc Hhere Hvalid.
  split; [by apply current_destination_here|].
  split; [by apply direction_to_none|].
  split; [by apply on_ready_here|].
  split; [|by apply run_here].
  clear -Hc Hhere Hvalid. revert e Hc Hhere.
  induction Hvalid as [|i calls Hi _ IH]; intros e Hc Hhere; simpl.
  - exists e, []. do 5 (split; [done|]). split; [by apply Forall_nil|done].
  - destruct (invoke_here i e Hc Hhere Hi)
      as (e1 & ws1 & -> & Hfl & Hvis & Hc1 & Hw & Hws & Hm & Hd & Hu & Hdn).
    simpl.
    destruct (IH e1 Hc1) as
      (e2 & ws2 & -> & Hfl2 & Hvis2 & Hc2 & Hw2 & Hws2 & Hm2 & Hd2 & Hu2 & Hdn2).
    { rewrite Hfl. unfold pending in *.
      destruct Hhere as [Hp|[Hp|Hp]];
        [left; by apply Hd|right; left; by apply Hu|right; right; by apply Hdn]. }
    exists e2, (ws2 ++ ws1). split; [done|].
    split; [congruence|]. split; [congruence|]. split; [done|].
    split; [by rewrite Hw2, Hw, app_assoc|].
    split; [by apply Forall_app|].
    split; [auto|]. split; [by transitivity (destinations e1)|].
    split; [by transitivity (going_up e1)|by transitivity (going_down e1)].
Qed.

End Handlers.

(** ** The simulator keeps the elevator in a legal state *)

Section Simulator.
Context `{SetIteration}.

Ltac unfold_state :=
  unfold consistent, pending, commitment, destinations, going_up, going_down
    in *;
  simpl in *.

Lemma consistent_init (starting_floor : Z) :
  valid_floor starting_floor →
  consistent (Elevator_init ElevatorLogic_init starting_floor).
Proof.
  intros Hfloor. unfold consistent, pending, destinations, going_up, going_down.
  simpl. split; [done|]. split.
  { intros f [Hf|[Hf|Hf]]; by apply not_elem_of_empty in Hf. }
  split; [by left|]. done.
Qed.

(** The motor is stopped, or runs in the committed direction. *)
Lemma consistent_motor (e : Elevator) :
  consistent e →
  _motor_direction e = None
  ∨ (_motor_direction e = Some UP ∧ commitment e = Some UP)
  ∨ (_motor_direction e = Some DOWN ∧ commitment e = Some DOWN).
Proof.
  intros (_ & _ & Hdir & Hmotor & _).
  destruct (_motor_direction e) as [m|] eqn:Hm; [|by left].
  right. specialize (Hmotor ltac:(done)). rewrite <- Hmotor in Hdir.
  destruct (is_direction_cases m Hdir) as [-> | ->]; auto.
Qed.

(** New requests inside the building keep the state consistent. *)
Lemma consistent_more_requests (e e' : Elevator) :
  consistent e →
  _current_floor e' = _current_floor e →
  _motor_direction e' = _motor_direction e →
  commitment e' = commitment e →
  (∀ f, pending e f → pending e' f) →
  (∀ f, pending e' f → valid_floor f) →
  consistent e'.
Proof.
  intros (Hfloor & _ & Hdir & Hmotor & Hup & Hdown) Hfl Hm Hc Hmore Hvalid.
  unfold consistent. rewrite Hfl, Hm, Hc.
  do 4 (split; [done|]). split.
  - intros Hcu. destruct (Hup Hcu) as (f & Hf & Hlt). eauto.
  - intros Hcd. destruct (Hdown Hcd) as (f & Hf & Hlt). eauto.
Qed.

Lemma pending_on_called (e e' : Elevator) (floor : Z) (direction : option Z)
    (f : Z) :
  on_called floor direction e = Ok e' →
  pending e' f ↔ pending e f ∨ f = floor.
Proof.
  unfold on_called.
  destruct (decide (direction = Some UP)); [|destruct (decide _); [|done]];
    intros [= <-]; unfold pending, destinations, going_up, going_down; simpl;
    rewrite elem_of_union, elem_of_singleton; tauto.
Qed.

Lemma pending_on_floor_selected (e : Elevator) (floor f : Z) :
  (pending e f → pending (on_floor_selected floor e) f)
  ∧ (pending (on_floor_selected floor e) f → pending e f ∨ f = floor).
Proof.
  unfold on_floor_selected. destruct (_ && _); [tauto|].
  unfold pending, destinations, going_up, going_down; simpl.
  rewrite elem_of_union, elem_of_singleton. tauto.
Qed.

Lemma call_consistent (e : Elevator) (floor : Z) (direction : option Z) :
  consistent e →
  valid_floor floor →
  direction = Some UP ∨ direction = Some DOWN →
  ∃ e', call floor direction e = Ok e'
    ∧ consistent e'
    ∧ _current_floor e' = _current_floor e
    ∧ motor_writes e' = motor_writes e.
Proof.
  intros Hcons Hfloor Hdir. unfold call.
  assert (∃ e', on_called floor direction e = Ok e'
                ∧ _current_floor e' = _current_floor e
                ∧ _motor_direction e' = _motor_direction e
                ∧ commitment e' = commitment e
                ∧ motor_writes e' = motor_writes e)
    as (e' & He' & Hfl & Hm & Hc & Hw).
  { unfold on_called. destruct Hdir as [-> | ->].
    - rewrite decide_True by done. eauto 10.
    - rewrite decide_False by done. rewrite decide_True by done. eauto 10. }
  exists e'. split; [done|]. split; [|done].
  apply (consistent_more_requests e e' Hcons Hfl Hm Hc).
  - intros f Hf. apply (pending_on_called _ _ _ _ f He'). by left.
  - intros f [Hf| ->]%(pending_on_called _ _ _ _ f He'); [|done].
    destruct Hcons as (_ & Hvalid & _). by apply Hvalid.
Qed.

Lemma select_floor_consistent (e : Elevator) (floor : Z) :
  consistent e →
  valid_floor floor →
  ∃ e', select_floor floor e = Ok e'
    ∧ consistent e'
    ∧ _current_floor e' = _current_floor e
    ∧ motor_writes e' = motor_writes e.
Proof.
  intros Hcons Hfloor. exists (on_floor_selected floor e).
  split; [done|].
  assert (_current_floor (on_floor_selected floor e) = _current_floor e
          ∧ _motor_direction (on_floor_selected floor e) = _motor_direction e
          ∧ commitment (on_floor_selected floor e) = commitment e
          ∧ motor_writes (on_floor_selected floor e) = motor_writes e)
    as (Hfl & Hm & Hc & Hw).
  { unfold on_floor_selected. by destruct (_ && _). }
  split; [|done].
  apply (consistent_more_requests e _ Hcons Hfl Hm Hc).
  - intros f. apply pending_on_floor_selected.
  - intros f [Hf| ->]%pending_on_floor_selected; [|done].
    destruct Hcons as (_ & Hvalid & _). by apply Hvalid.
Qed.

(** In a consistent state a commitment has a destination, so the release
    branch of [on_ready] is not taken. *)
Lemma consistent_destination (e : Elevator) :
  consistent e →
  ∃ o, _current_destination e = Ok o
    ∧ (o = None → commitment e = None).
Proof.
  intros (_ & _ & Hdir & _ & Hup & Hdown).
  destruct (current_destination_ok e Hdir) as [[d|] Ho];
    [by exists (Some d)|].
  exists None. split; [done|]. intros _.
  destruct (commitment e) as [dir|] eqn:Hc; [exfalso|done].
  destruct (is_direction_cases dir Hdir) as [-> | ->].
  - destruct (Hup eq_refl) as (f & Hf & Hlt).
    destruct (current_destination_none e f Ho Hf) as [[_ ?]|[Hc' _]];
      [lia|by rewrite Hc in Hc'].
  - destruct (Hdown eq_refl) as (f & Hf & Hlt).
    destruct (current_destination_none e f Ho Hf) as [[Hc' _]|[_ ?]];
      [by rewrite Hc in Hc'|lia].
Qed.

Lemma release_reacquire_consistent (e : Elevator) :
  consistent e → release_reacquire e = e.
Proof.
  intros (o & Ho & Hnone)%consistent_destination.
  unfold release_reacquire. rewrite Ho.
  destruct o as [d|]; [done|]. by rewrite Hnone.
Qed.

Lemma on_ready_consistent (e : Elevator) :
  consistent e →
  _motor_direction e = None →
  ∃ e' ws, on_ready e = Ok e'
    ∧ consistent e'
    ∧ _current_floor e' = _current_floor e
    ∧ motor_writes e' = ws ++ motor_writes e
    ∧ ∀ dir, commitment e = Some dir → ws = [Some dir].
Proof.
  intros Hcons Hstopped.
  pose proof Hcons as (Hfloor & Hvalid & Hdir & Hmotor & Hup & Hdown).
  destruct (on_ready_eq e Hdir) as (o & Ho & ->).
  destruct (consistent_destination e Hcons) as (o' & Ho' & Hnone).
  rewrite (release_reacquire_consistent e Hcons) in *.
  rewrite Ho in Ho'. injection Ho' as <-.
  destruct o as [d|].
  - destruct (commitment e) as [dir|] eqn:Hc.
    + exists (set_motor_direction (Some dir) e), [Some dir].
      split; [done|]. split; [|split; [done|split; [done|]]].
      * unfold_state. rewrite Hc. split_and!; done.
      * by intros dir' [= ->].
    + set (dir := _direction_to e d).
      destruct (current_destination_some e d Ho) as (Hpend & _).
      exists (set_motor_direction dir (set_directionality dir e)), [dir].
      split; [done|]. split; [|done].
      pose proof (direction_to_is_direction e d) as Hdir'.
      pose proof (direction_to_up e d) as Hup'.
      pose proof (direction_to_down e d) as Hdown'.
      fold dir in Hdir', Hup', Hdown'. clearbody dir.
      unfold_state. do 4 (split; [done|]).
      split; intros Hcommit; exists d; (split; [done|]); tauto.
  - specialize (Hnone eq_refl).
    exists (set_directionality None e), [].
    split; [done|]. split; [|split; [done|split; [done|]]].
    + unfold_state. rewrite Hstopped. do 2 (split; [done|]).
      split; [by left|]. done.
    + intros dir Hc. by rewrite Hnone in Hc.
Qed.

(** A running motor has a destination at the floor it reaches next. *)
Lemma destination_after_move_up (e : Elevator) :
  consistent e →
  commitment e = Some UP →
  ∃ d, _current_destination (move 1 e) = Ok (Some d)
    ∧ pending e d ∧ _current_floor e + 1 ≤ d.
Proof.
  intros (_ & _ & Hdir & _ & Hup & _) Hc.
  destruct (Hup Hc) as (f & Hf & Hlt).
  destruct (current_destination_ok (move 1 e) Hdir) as [[d|] Ho].
  - exists d. split; [done|].
    destruct (current_destination_some _ d Ho) as (Hp & Hge & _).
    split; [exact Hp|]. exact (Hge Hc).
  - exfalso.
    destruct (current_destination_none (move 1 e) f Ho Hf)
      as [[_ Hlt']|[Hc' _]].
    + simpl in Hlt'. lia.
    + change (commitment e = Some DOWN) in Hc'. by rewrite Hc in Hc'.
Qed.

Lemma destination_after_move_down (e : Elevator) :
  consistent e →
  commitment e = Some DOWN →
  ∃ d, _current_destination (move (-1) e) = Ok (Some d)
    ∧ pending e d ∧ d ≤ _current_floor e - 1.
Proof.
  intros (_ & _ & Hdir & _ & _ & Hdown) Hc.
  destruct (Hdown Hc) as (f & Hf & Hlt).
  destruct (current_destination_ok (move (-1) e) Hdir) as [[d|] Ho].
  - exists d. split; [done|].
    destruct (current_destination_some _ d Ho) as (Hp & _ & Hle).
    split; [exact Hp|]. specialize (Hle Hc). simpl in Hle. lia.
  - exfalso.
    destruct (current_destination_none (move (-1) e) f Ho Hf)
      as [[Hc' _]|[_ Hlt']].
    + change (commitment e = Some UP) in Hc'. by rewrite Hc in Hc'.
    + simpl in Hlt'. lia.
Qed.

(** [on_floor_changed] after a move in the committed direction. *)
Lemma on_floor_changed_consistent (e : Elevator) (delta : Z) :
  consistent e →
  (_motor_direction e = Some UP ∧ delta = 1)
  ∨ (_motor_direction e = Some DOWN ∧ delta = -1) →
  ∃ e' ws, on_floor_changed (move delta e) = Ok e'
    ∧ consistent e'
    ∧ _current_floor e' = _current_floor e + delta
    ∧ motor_writes e' = ws ++ motor_writes e
    ∧ commands_among [None] ws.
Proof.
  intros Hcons Hrun.
  pose proof Hcons as (Hfloor & Hvalid & Hdir & Hmotor & _).
  assert (∃ d, _current_destination (move delta e) = Ok (Some d)
               ∧ pending e d
               ∧ _motor_direction e = commitment e
               ∧ (commitment e = Some UP → _current_floor e + delta ≤ d)
               ∧ (commitment e = Some DOWN → d ≤ _current_floor e + delta)
               ∧ ((commitment e = Some UP ∧ delta = 1)
                  ∨ (commitment e = Some DOWN ∧ delta = -1)))
    as (d & Hd & Hpend & Hm & Hge & Hle & Hcommitted).
  { destruct Hrun as [[Hm ->]|[Hm ->]].
    - assert (commitment e = Some UP) as Hc.
      { rewrite <- Hm. symmetry. apply Hmotor. by rewrite Hm. }
      destruct (destination_after_move_up e Hcons Hc) as (d & Hd & Hp & Hge).
      exists d. rewrite Hc. split_and!; [done..| |by left]. done.
    - assert (commitment e = Some DOWN) as Hc.
      { rewrite <- Hm. symmetry. apply Hmotor. by rewrite Hm. }
      destruct (destination_after_move_down e Hcons Hc) as (d & Hd & Hp & Hle).
      exists d. rewrite Hc. split_and!; [done..| |by right].
      intros _. lia. }
  pose proof (Hvalid d Hpend) as Hdvalid.
  destruct (decide (_current_floor (move delta e) = d)) as [Hhere|Haway].
  - rewrite <- Hhere in Hd.
    set (stopped := discard_floor (_current_floor (move delta e))
                      (set_motor_direction None (move delta e))).
    assert (∀ f, pending stopped f →
                 pending e f ∧ f ≠ _current_floor e + delta) as Hstopped.
    { intros f Hf%pending_discard_floor. exact Hf. }
    destruct (on_floor_changed_stop _ Hd) as [(_ & ->)|(next & Hnext & ->)];
      fold stopped.
    + exists (set_directionality None stopped), [None].
      split; [done|]. split; [|split; [done|split; [done|]]].
      * simpl in Hhere.
        split; [simpl; by rewrite Hhere|].
        split; [intros f Hf; apply Hvalid; by apply (Hstopped f)|].
        split; [by left|]. done.
      * apply Forall_singleton. by left.
    + exists stopped, [None].
      split; [done|]. split; [|split; [done|split; [done|]]].
      * destruct (current_destination_some _ next Hnext) as (Hp & Hup & Hdown).
        destruct (Hstopped next Hp) as (Hp' & Hne).
        simpl in Hhere.
        split; [simpl; by rewrite Hhere|].
        split; [intros f Hf; apply Hvalid; by apply (Hstopped f)|].
        split; [exact Hdir|]. split; [done|].
        split; intros Hc; exists next; (split; [exact Hp|]).
        -- specialize (Hup Hc). simpl in *. lia.
        -- specialize (Hdown Hc). simpl in *. lia.
      * apply Forall_singleton. by left.
  - rewrite (on_floor_changed_pass _ d Hd Haway).
    exists (move delta e), []. simpl in Haway.
    split; [done|]. split; [|split; [done|split; [done|by apply Forall_nil]]].
    split.
    { simpl. unfold valid_floor in *.
      destruct Hcommitted as [[Hc ->]|[Hc ->]];
        [specialize (Hge Hc)|specialize (Hle Hc)]; lia. }
    split; [exact Hvalid|]. split; [exact Hdir|].
    split; [intros _; exact Hm|].
    split; intros Hc; exists d; (split; [exact Hpend|]).
    + specialize (Hge Hc). simpl. lia.
    + specialize (Hle Hc). simpl. lia.
Qed.

(** The two assertions that end [step]. *)
Lemma step_asserts (r : result Elevator) (e' : Elevator) :
  r = Ok e' →
  valid_floor (_current_floor e') →
  (e ← r;
   _ ← py_assert (_current_floor e >= 1);
   _ ← py_assert (_current_floor e <= FLOOR_COUNT);
   Ok e) = Ok e'.
Proof.
  intros -> [Hlo Hhi]. simpl. unfold py_assert.
  rewrite decide_True by lia. simpl. by rewrite decide_True by lia.
Qed.

Lemma step_stopped (e : Elevator) :
  _motor_direction e = None →
  step e =
    (e ← on_ready e;
     _ ← py_assert (_current_floor e >= 1);
     _ ← py_assert (_current_floor e <= FLOOR_COUNT);
     Ok e).
Proof. intros Hm. unfold step. by rewrite Hm. Qed.

Lemma step_running (e : Elevator) (delta : Z) :
  (_motor_direction e = Some UP ∧ delta = 1)
  ∨ (_motor_direction e = Some DOWN ∧ delta = -1) →
  step e =
    (e ← on_floor_changed (move delta e);
     _ ← py_assert (_current_floor e >= 1);
     _ ← py_assert (_current_floor e <= FLOOR_COUNT);
     Ok e).
Proof.
  intros [[Hm ->]|[Hm ->]]; unfold step; rewrite Hm.
  - rewrite !decide_True by done. reflexivity.
  - rewrite (decide_False (P := Some DOWN = Some UP)) by done.
    rewrite !decide_True by done. reflexivity.
Qed.

(** One step keeps the state consistent; while committed, it does not move
    the car against the commitment and writes no opposite command. *)
Lemma step_consistent (e : Elevator) :
  consistent e →
  ∃ e' ws, step e = Ok e'
    ∧ consistent e'
    ∧ motor_writes e' = ws ++ motor_writes e
    ∧ (commitment e = Some UP →
       _current_floor e ≤ _current_floor e'
       ∧ commands_among [Some UP; None] ws)
    ∧ (commitment e = Some DOWN →
       _current_floor e' ≤ _current_floor e
       ∧ commands_among [Some DOWN; None] ws).
Proof.
  intros Hcons.
  destruct (consistent_motor e Hcons) as [Hm|[[Hm Hc]|[Hm Hc]]].
  - destruct (on_ready_consistent e Hcons Hm)
      as (e' & ws & He' & Hcons' & Hfl & Hw & Hws).
    exists e', ws. rewrite (step_stopped e Hm).
    split; [apply step_asserts; [done|exact (proj1 Hcons')]|].
    split; [done|]. split; [done|]. rewrite Hfl.
    split; intros Hc; (split; [lia|]); rewrite (Hws _ Hc);
      apply Forall_singleton; by left.
  - destruct (on_floor_changed_consistent e 1 Hcons)
      as (e' & ws & He' & Hcons' & Hfl & Hw & Hws); [by left|].
    exists e', ws. rewrite (step_running e 1) by (by left).
    split; [apply step_asserts; [done|exact (proj1 Hcons')]|].
    split; [done|]. split; [done|]. rewrite Hfl.
    split; intros Hc'; [|by rewrite Hc in Hc'].
    split; [lia|]. eapply Forall_impl; [exact Hws|].
    intros w Hin. apply list_elem_of_singleton in Hin as ->. by right; left.
  - destruct (on_floor_changed_consistent e (-1) Hcons)
      as (e' & ws & He' & Hcons' & Hfl & Hw & Hws); [by right|].
    exists e', ws. rewrite (step_running e (-1)) by (by right).
    split; [apply step_asserts; [done|exact (proj1 Hcons')]|].
    split; [done|]. split; [done|]. rewrite Hfl.
    split; intros Hc'; [by rewrite Hc in Hc'|].
    split; [lia|]. eapply Forall_impl; [exact Hws|].
    intros w Hin. apply list_elem_of_singleton in Hin as ->. by right; left.
Qed.

Lemma apply_event_consistent (ev : event) (e : Elevator) :
  consistent e →
  valid_event ev →
  ∃ e' ws, apply_event ev e = Ok e'
    ∧ consistent e'
    ∧ motor_writes e' = ws ++ motor_writes e
    ∧ (commitment e = Some UP →
       _current_floor e ≤ _current_floor e'
       ∧ commands_among [Some UP; None] ws)
    ∧ (commitment e = Some DOWN →
       _current_floor e' ≤ _current_floor e
       ∧ commands_among [Some DOWN; None] ws).
Proof.
  intros Hcons Hev. destruct ev as [floor direction|floor|]; simpl.
  - destruct Hev as [Hfloor Hdir].
    destruct (call_consistent e floor direction Hcons Hfloor Hdir)
      as (e' & -> & Hcons' & Hfl & Hw).
    exists e', []. rewrite Hfl.
    split; [done|]. split; [done|]. split; [done|].
    split; intros _; (split; [lia|apply Forall_nil; done]).
  - destruct (select_floor_consistent e floor Hcons Hev)
      as (e' & -> & Hcons' & Hfl & Hw).
    exists e', []. rewrite Hfl.
    split; [done|]. split; [done|]. split; [done|].
    split; intros _; (split; [lia|apply Forall_nil; done]).
  - by apply step_consistent.
Qed.

Lemma run_consistent (evs : list event) (e : Elevator) :
  consistent e →
  Forall valid_event evs →
  ∃ e', run evs e = Ok e' ∧ consistent e'.
Proof.
  intros Hcons Hevs. revert e Hcons.
  induction Hevs as [|ev evs Hev _ IH]; intros e Hcons; simpl.
  - by exists e.
  - destruct (apply_event_consistent ev e Hcons Hev) as (e1 & _ & -> & Hc1 & _).
    simpl. by apply IH.
Qed.

Lemma reachable_consistent (e : Elevator) : reachable e → consistent e.
Proof.
  intros (start & evs & Hstart & Hevs & Hrun).
  destruct (run_consistent evs _ (consistent_init start Hstart) Hevs)
    as (e' & He' & Hcons).
  rewrite Hrun in He'. by injection He' as ->.
Qed.

(** Along a run that stays committed the car never moves back, and only the
    committed direction and [None] are written to the motor. *)
Lemma run_committed (dir : Z) (evs : list event) (e : Elevator) :
  dir = UP ∨ dir = DOWN →
  consistent e →
  Forall valid_event evs →
  stays_committed dir evs e →
  ∃ e' ws, run evs e = Ok e'
    ∧ motor_writes e' = ws ++ motor_writes e
    ∧ commands_among [Some dir; None] ws
    ∧ (dir = UP → _current_floor e ≤ _current_floor e')
    ∧ (dir = DOWN → _current_floor e' ≤ _current_floor e).
Proof.
  intros Hdir Hcons Hevs. revert e Hcons.
  induction Hevs as [|ev evs Hev _ IH]; intros e Hcons; simpl.
  - intros _. exists e, [].
    split; [done|]. split; [done|]. split; [by apply Forall_nil|].
    split; intros _; lia.
  - intros [Hc Hstays].
    destruct (apply_event_consistent ev e Hcons Hev)
      as (e1 & ws1 & He1 & Hcons1 & Hw1 & Hup & Hdown).
    rewrite He1 in Hstays |- *. simpl.
    destruct (IH e1 Hcons1 Hstays) as (e2 & ws2 & -> & Hw2 & Hws2 & Hup2 & Hdown2).
    exists e2, (ws2 ++ ws1). split; [done|].
    split; [by rewrite Hw2, Hw1, app_assoc|].
    destruct Hdir as [-> | ->].
    + destruct (Hup Hc) as [Hle Hws1].
      split; [by apply Forall_app|].
      split; [intros _; specialize (Hup2 eq_refl); lia|done].
    + destruct (Hdown Hc) as [Hle Hws1].
      split; [by apply Forall_app|].
      split; [done|intros _; specialize (Hdown2 eq_refl); lia].
Qed.

(** C5. From a fresh elevator at a floor of the building, no finite
    sequence of valid events raises: the car stays between floor 1 and
    [FLOOR_COUNT], and whenever the motor runs, a destination is computable
    at the floor at which [on_floor_changed] is invoked next. *)
Theorem no_illegal_state (starting_floor : Z) (evs : list event) :
  valid_floor starting_floor →
  Forall valid_event evs →
  ∃ e, run evs (Elevator_init ElevatorLogic_init starting_floor) = Ok e
    ∧ 1 ≤ _current_floor e ≤ FLOOR_COUNT
    ∧ (_motor_direction e = Some UP →
       ∃ d, _current_destination (move 1 e) = Ok (Some d))
    ∧ (_motor_direction e = Some DOWN →
       ∃ d, _current_destination (move (-1) e) = Ok (Some d)).
Proof.
  intros Hstart Hevs.
  destruct (run_consistent evs _ (consistent_init starting_floor Hstart) Hevs)
    as (e & He & Hcons).
  exists e. split; [done|]. split; [exact (proj1 Hcons)|].
  pose proof Hcons as (_ & _ & _ & Hmotor & _).
  split; intros Hm.
  - destruct (destination_after_move_up e Hcons) as (d & Hd & _); [|by eauto].
    rewrite <- Hm. symmetry. apply Hmotor. by rewrite Hm.
  - destruct (destination_after_move_down e Hcons) as (d & Hd & _); [|by eauto].
    rewrite <- Hm. symmetry. apply Hmotor. by rewrite Hm.
Qed.

(** C8. In a reachable state committed up (down), every destination is at
    or above (below) the current floor; and along any run of valid events
    before each of which the commitment is up (down), the car, and with it
    each stop, is never below (above) where it was, and the only motor
    commands written are up (down) and [None]. *)
Theorem committed_direction_is_monotone (e : Elevator) (evs : list event) :
  reachable e →
  Forall valid_event evs →
  (commitment e = Some UP →
     ∀ d, _current_destination e = Ok (Some d) → _current_floor e ≤ d)
  ∧ (commitment e = Some DOWN →
     ∀ d, _current_destination e = Ok (Some d) → d ≤ _current_floor e)
  ∧ (stays_committed UP evs e →
     ∃ e' ws, run evs e = Ok e'
       ∧ _current_floor e ≤ _current_floor e'
       ∧ motor_writes e' = ws ++ motor_writes e
       ∧ commands_among [Some UP; None] ws)
  ∧ (stays_committed DOWN evs e →
     ∃ e' ws, run evs e = Ok e'
       ∧ _current_floor e' ≤ _current_floor e
       ∧ motor_writes e' = ws ++ motor_writes e
       ∧ commands_among [Some DOWN; None] ws).
Proof.
  intros Hcons%reachable_consistent Hevs.
  split; [|split; [|split]].
  - intros Hc d Hd. by destruct (current_destination_some e d Hd) as (_ & Hge & _); auto.
  - intros Hc d Hd. by destruct (current_destination_some e d Hd) as (_ & _ & Hle); auto.
  - intros Hstays.
    destruct (run_committed UP evs e (or_introl eq_refl) Hcons Hevs Hstays)
      as (e' & ws & He' & Hw & Hws & Hup & _).
    exists e', ws. split; [done|]. split; [by apply Hup|]. done.
  - intros Hstays.
    destruct (run_committed DOWN evs e (or_intror eq_refl) Hcons Hevs Hstays)
      as (e' & ws & He' & Hw & Hws & _ & Hdown).
    exists e', ws. split; [done|]. split; [by apply Hdown|]. done.
Qed.

(** *** Starvation *)

(** Stopped with no commitment at a floor that has a pending request, a
    step only writes [None] to the motor. *)
Lemma step_here (e : Elevator) :
  commitment e = None →
  pending e (_current_floor e) →
  _motor_direction e = None →
  valid_floor (_current_floor e) →
  step e = Ok (set_motor_direction None e).
Proof.
  intros Hc Hhere Hm Hfloor. rewrite (step_stopped e Hm).
  apply step_asserts; [by apply on_ready_here|done].
Qed.

Lemma steps_here (n : nat) (e : Elevator) :
  commitment e = None →
  pending e (_current_floor e) →
  _motor_direction e = None →
  valid_floor (_current_floor e) →
  ∃ e', run (replicate n Step) e = Ok e'
    ∧ _current_floor e' = _current_floor e
    ∧ _visited_floors e' = _visited_floors e
    ∧ _motor_direction e' = None
    ∧ _logic_delegate e' = _logic_delegate e.
Proof.
  revert e. induction n as [|n IH]; intros e Hc Hhere Hm Hfloor; simpl.
  - by exists e.
  - rewrite (step_here e Hc Hhere Hm Hfloor). simpl.
    destruct (IH (set_motor_direction None e)) as (e' & -> & ? & ? & ? & ?);
      [done..|].
    by exists e'.
Qed.

(** C6, at the input where it fails: a fresh elevator at floor 1 is called
    at floor 1 (going up) and at floor 5 (going down), and then only time
    passes.  However many steps are taken, the car stays at floor 1 with
    the motor stopped and both calls stay in their sets. *)
Theorem calls_at_idle_floor_starve (n : nat) :
  ∃ e,
    run (Call 1 (Some UP) :: Call 5 (Some DOWN) :: replicate n Step)
        (Elevator_init ElevatorLogic_init 1) = Ok e
    ∧ _current_floor e = 1
    ∧ _visited_floors e = [1]
    ∧ _motor_direction e = None
    ∧ 1 ∈ going_up e
    ∧ 5 ∈ going_down e.
Proof.
  set (called :=
    set_requests_going_down ({[5]} ∪ ∅)
      (set_requests_going_up ({[1]} ∪ ∅)
         (Elevator_init ElevatorLogic_init 1))).
  destruct (steps_here n called) as (e & He & Hfl & Hvis & Hm & Hlogic).
  - done.
  - right; left. unfold going_up, called. simpl.
    apply elem_of_union_l. by apply elem_of_singleton.
  - done.
  - unfold valid_floor, FLOOR_COUNT. simpl. lia.
  - exists e. split; [exact He|].
    split; [done|]. split; [done|]. split; [done|].
    unfold going_up, going_down. rewrite Hlogic. simpl.
    split; apply elem_of_union_l; by apply elem_of_singleton.
Qed.

End Simulator.

(** ** The statements at concrete states

    The iteration order is the ascending one of [ascending_iteration]. *)

Ltac valid_events :=
  repeat first
    [ apply List.Forall_nil
    | apply List.Forall_cons
    | exact I
    | split
    | (left; reflexivity)
    | (right; reflexivity)
    | (unfold valid_floor, FLOOR_COUNT; lia) ].

(** The scenarios of the specification.  Called at floor 5 to go down, the
    car visits 2, 3, 4, 5; floor 1 is then selected and floor 3 calls to go
    down: the car serves floor 3 on its way to floor 1. *)
Example scenario_down_from_fifth :
  _visited_floors <$>
    run ([Call 5 (Some DOWN)] ++ replicate 5 Step
         ++ [SelectFloor 1; Call 3 (Some DOWN)] ++ replicate 6 Step)
        (Elevator_init ElevatorLogic_init 1)
  = Ok [1; 2; 3; 4; 5; 4; 3; 2; 1].
Proof. vm_compute. reflexivity. Qed.

(** Called at floor 2 to go down, then floor 5 selected: the car finishes
    its way up before it comes back for floor 2. *)
Example scenario_same_direction :
  _visited_floors <$>
    run ([Call 2 (Some DOWN); SelectFloor 5] ++ replicate 9 Step)
        (Elevator_init ElevatorLogic_init 1)
  = Ok [1; 2; 3; 4; 5; 4; 3; 2].
Proof. vm_compute. reflexivity. Qed.

(** Committed up at floor 3, the selection of floor 2 is dropped. *)
Example scenario_out_of_direction :
  select_floor 2 sample_stopped = Ok sample_stopped.
Proof. vm_compute. reflexivity. Qed.

(** The call of [test_called_at_stopped_floor]: called again at floor 3
    where it rests, the car never leaves for the call at floor 5. *)
Example scenario_called_at_stopped_floor :
  _visited_floors <$>
    run ([Call 3 (Some UP)] ++ replicate 3 Step
         ++ [Call 3 (Some UP); Call 5 (Some DOWN)] ++ replicate 8 Step)
        (Elevator_init ElevatorLogic_init 1)
  = Ok [1; 2; 3].
Proof. vm_compute. reflexivity. Qed.

Lemma on_floor_changed_stops_or_passes_witness :
  _current_destination sample_arriving = Ok (Some 3)
  ∧ on_floor_changed sample_arriving = Ok sample_stopped.
Proof.
  assert (Hd : _current_destination sample_arriving = Ok (Some 3))
    by (vm_compute; reflexivity).
  split; [exact Hd|].
  destruct (@on_floor_changed_stops_or_passes ascending_iteration
              sample_arriving 3 Hd) as [Hstop _].
  destruct (Hstop eq_refl) as [[Hnone _]|(next & _ & ->)].
  - vm_compute in Hnone. discriminate Hnone.
  - vm_compute. reflexivity.
Defined.

Lemma on_ready_decides_witness :
  is_direction (commitment sample_called)
  ∧ on_ready sample_called
    = Ok {| _visited_floors := [1];
            _current_floor := 1;
            _motor_direction := Some UP;
            motor_writes := [Some UP];
            _logic_delegate :=
              {| requested_destinations := ∅;
                 requests_going_up := ∅;
                 requests_going_down := {[5]};
                 directionality := Some UP |} |}.
Proof.
  assert (Hdir : is_direction (commitment sample_called)) by (by left).
  split; [exact Hdir|].
  pose proof (@on_ready_decides ascending_iteration sample_called Hdir) as Hthm.
  cbv zeta in Hthm.
  assert (Hd : _current_destination sample_called = Ok (Some 5))
    by (vm_compute; reflexivity).
  rewrite Hd in Hthm. exact Hthm.
Defined.

Lemma no_illegal_state_witness :
  valid_floor 1
  ∧ Forall valid_event [Call 5 (Some DOWN); Step; Step; SelectFloor 2]
  ∧ ∃ e,
      run [Call 5 (Some DOWN); Step; Step; SelectFloor 2]
          (Elevator_init ElevatorLogic_init 1) = Ok e
      ∧ 1 ≤ _current_floor e ≤ FLOOR_COUNT
      ∧ (_motor_direction e = Some UP →
         ∃ d, _current_destination (move 1 e) = Ok (Some d))
      ∧ (_motor_direction e = Some DOWN →
         ∃ d, _current_destination (move (-1) e) = Ok (Some d)).
Proof.
  assert (Hfloor : valid_floor 1) by valid_events.
  assert (Hevs :
    Forall valid_event [Call 5 (Some DOWN); Step; Step; SelectFloor 2])
    by valid_events.
  split; [exact Hfloor|]. split; [exact Hevs|].
  exact (@no_illegal_state ascending_iteration 1 _ Hfloor Hevs).
Defined.

Lemma idle_at_pending_floor_is_stuck_witness :
  commitment sample_stuck = None
  ∧ pending sample_stuck (_current_floor sample_stuck)
  ∧ Forall valid_invocation
      [OnReady; OnCalled 2 UP; OnFloorSelected 6; OnReady]
  ∧ _current_destination sample_stuck = Ok (Some 4)
  ∧ on_ready sample_stuck
    = Ok {| _visited_floors := [4];
            _current_floor := 4;
            _motor_direction := None;
            motor_writes := [None];
            _logic_delegate :=
              {| requested_destinations := {[4; 6]};
                 requests_going_up := ∅;
                 requests_going_down := ∅;
                 directionality := None |} |}
  ∧ (∃ e' ws,
      invoke_all [OnReady; OnCalled 2 UP; OnFloorSelected 6; OnReady]
                 sample_stuck = Ok e'
      ∧ _current_floor e' = 4
      ∧ commitment e' = None
      ∧ motor_writes e' = ws ++ []
      ∧ commands_among [None] ws
      ∧ _motor_direction e' = None
      ∧ {[4; 6]} ⊆ destinations e')
  ∧ run [Step; Call 2 (Some UP); SelectFloor 6; Step] sample_stuck
    = invoke_all [OnReady; OnCalled 2 UP; OnFloorSelected 6; OnReady]
                 sample_stuck.
Proof.
  assert (Hc : commitment sample_stuck = None) by reflexivity.
  assert (Hhere : pending sample_stuck (_current_floor sample_stuck)).
  { left. vm_compute. reflexivity. }
  assert (Hcalls : Forall valid_invocation
                     [OnReady; OnCalled 2 UP; OnFloorSelected 6; OnReady])
    by valid_events.
  split; [exact Hc|]. split; [exact Hhere|]. split; [exact Hcalls|].
  destruct (@idle_at_pending_floor_is_stuck ascending_iteration
              sample_stuck _ Hc Hhere Hcalls)
    as (Hd & _ & Hready
        & (e' & ws & He' & Hfl & _ & Hc' & Hw & Hws & Hm & Hsub & _) & Hrun).
  split; [exact Hd|]. split; [exact Hready|]. split.
  - exists e', ws. split; [exact He'|]. split; [exact Hfl|].
    split; [exact Hc'|]. split; [exact Hw|]. split; [exact Hws|].
    split; [exact (Hm eq_refl)|exact Hsub].
  - apply Hrun; [reflexivity|]. unfold FLOOR_COUNT. simpl. lia.
Defined.

Lemma committed_direction_is_monotone_witness :
  reachable sample_committed
  ∧ Forall valid_event [Step; Call 4 (Some UP); Step]
  ∧ stays_committed UP [Step; Call 4 (Some UP); Step] sample_committed
  ∧ (∀ d, _current_destination sample_committed = Ok (Some d) → 2 ≤ d)
  ∧ ∃ e' ws,
      run [Step; Call 4 (Some UP); Step] sample_committed = Ok e'
      ∧ 2 ≤ _current_floor e'
      ∧ motor_writes e' = ws ++ [Some UP]
      ∧ commands_among [Some UP; None] ws.
Proof.
  assert (Hreach : reachable sample_committed).
  { exists 1, [SelectFloor 3; SelectFloor 5; Call 2 (Some DOWN); Step; Step].
    split; [valid_events|]. split; [valid_events|].
    vm_compute. reflexivity. }
  assert (Hevs : Forall valid_event [Step; Call 4 (Some UP); Step])
    by valid_events.
  assert (Hstays :
    stays_committed UP [Step; Call 4 (Some UP); Step] sample_committed).
  { vm_compute. repeat split; reflexivity. }
  split; [exact Hreach|]. split; [exact Hevs|]. split; [exact Hstays|].
  destruct (@committed_direction_is_monotone ascending_iteration
              sample_committed _ Hreach Hevs) as (Hup & _ & Hrun & _).
  split; [exact (Hup eq_refl)|exact (Hrun Hstays)].
Defined.

Lemma stop_is_idempotent_witness :
  _current_destination sample_arriving = Ok (Some 3)
  ∧ ∃ e', on_floor_changed sample_arriving = Ok e'
      ∧ _current_floor e' = 3
      ∧ destinations e' = {[3; 5]} ∖ {[3]}
      ∧ going_up e' = ∅ ∖ {[3]}
      ∧ going_down e' = {[2]} ∖ {[3]}
      ∧ ¬ pending e' 3
      ∧ ∀ dir,
          _current_destination (set_directionality dir e') ≠ Ok (Some 3)
          ∧ (on_floor_changed (set_directionality dir e')
               = Ok (set_directionality dir e')
             ∨ ∃ x, on_floor_changed (set_directionality dir e') = Raise x).
Proof.
  assert (Hd : _current_destination sample_arriving = Ok (Some 3))
    by (vm_compute; reflexivity).
  split; [exact Hd|].
  exact (@stop_is_idempotent ascending_iteration sample_arriving Hd).
Defined.

(** ** Further properties of the handlers *)

Section HandlerFrames.
Context `{SetIteration}.

(** The release and re-acquire step only assigns to [directionality]. *)
Lemma release_reacquire_frame (e : Elevator) :
  ∃ d, release_reacquire e = set_directionality d e.
Proof.
  unfold release_reacquire.
  destruct (_current_destination e) as [[?|]|];
    [exists (commitment e); by rewrite set_directionality_same|
     |exists (commitment e); by rewrite set_directionality_same].
  destruct (commitment e) eqn:Hc;
    [|exists (commitment e); by rewrite set_directionality_same].
  destruct (_current_destination (set_directionality None e)) as [[found|]|];
    [by eexists|by exists None..].
Qed.

(** [on_ready] leaves the car, the log and the requests alone, writes at
    most one motor command, and that command is the commitment it ends
    with. *)
Lemma on_ready_frame (e e' : Elevator) :
  on_ready e = Ok e' →
  _current_floor e' = _current_floor e
  ∧ _visited_floors e' = _visited_floors e
  ∧ destinations e' = destinations e
  ∧ going_up e' = going_up e
  ∧ going_down e' = going_down e
  ∧ is_direction (commitment e')
  ∧ ((motor_writes e' = motor_writes e
      ∧ _motor_direction e' = _motor_direction e)
     ∨ (motor_writes e' = commitment e' :: motor_writes e
        ∧ _motor_direction e' = commitment e')).
Proof.
  intros Hready.
  assert (is_direction (commitment e)) as Hdir.
  { unfold on_ready in Hready.
    destruct (_current_destination e) as [o|x] eqn:Ho; [|done].
    exact (current_destination_direction e o Ho). }
  destruct (on_ready_eq e Hdir) as (o & Ho & Heq).
  pose proof (release_reacquire_direction e Hdir) as Hdir1.
  destruct (release_reacquire_frame e) as [d Hrel].
  rewrite Hrel in *. rewrite Heq in Hready. clear Heq.
  change (commitment (set_directionality d e)) with d in *.
  destruct o as [destination|].
  - destruct d as [dir|]; injection Hready as <-.
    + do 5 (split; [done|]). split; [exact Hdir1|]. by right.
    + do 5 (split; [done|]). split; [apply direction_to_is_direction|].
      by right.
  - injection Hready as <-. do 5 (split; [done|]).
    split; [by left|]. by left.
Qed.

(** [on_floor_changed] either changes nothing or stops at a pending floor:
    it writes [None] to the motor, removes the floor from the three sets
    and keeps or releases the commitment. *)
Lemma on_floor_changed_frame (e e' : Elevator) :
  on_floor_changed e = Ok e' →
  e' = e
  ∨ (pending e (_current_floor e)
     ∧ _current_floor e' = _current_floor e
     ∧ _visited_floors e' = _visited_floors e
     ∧ _motor_direction e' = None
     ∧ motor_writes e' = None :: motor_writes e
     ∧ destinations e' = destinations e ∖ {[_current_floor e]}
     ∧ going_up e' = going_up e ∖ {[_current_floor e]}
     ∧ going_down e' = going_down e ∖ {[_current_floor e]}
     ∧ (commitment e' = commitment e ∨ commitment e' = None)).
Proof.
  intros Hchanged.
  destruct (_current_destination e) as [[d|]|x] eqn:Hd;
    [|unfold on_floor_changed in Hchanged; by rewrite Hd in Hchanged..].
  destruct (decide (_current_floor e = d)) as [Hhere|Haway].
  - right. rewrite <- Hhere in Hd.
    destruct (current_destination_some e _ Hd) as (Hp & _).
    split; [exact Hp|].
    destruct (on_floor_changed_stop e Hd) as [(_ & Heq)|(next & _ & Heq)];
      rewrite Heq in Hchanged; injection Hchanged as <-;
      do 7 (split; [done|]); [by right|by left].
  - left. rewrite (on_floor_changed_pass e d Hd Haway) in Hchanged.
    by injection Hchanged as <-.
Qed.

(** One step of the simulator: either the car has not moved and no request
    has changed, or it has moved one floor, and then it has passed, or it
    has stopped at a floor that was pending and removed it. *)
Lemma step_frame (e e' : Elevator) :
  step e = Ok e' →
  (_current_floor e' = _current_floor e
   ∧ _visited_floors e' = _visited_floors e
   ∧ destinations e' = destinations e
   ∧ going_up e' = going_up e
   ∧ going_down e' = going_down e
   ∧ is_direction (commitment e'))
  ∨ (∃ delta, (delta = 1 ∨ delta = -1)
       ∧ _current_floor e' = _current_floor e + delta
       ∧ _visited_floors e' = _visited_floors e ++ [_current_floor e']
       ∧ (e' = move delta e
          ∨ (pending e (_current_floor e')
             ∧ _motor_direction e' = None
             ∧ motor_writes e' = None :: motor_writes e
             ∧ destinations e' = destinations e ∖ {[_current_floor e']}
             ∧ going_up e' = going_up e ∖ {[_current_floor e']}
             ∧ going_down e' = going_down e ∖ {[_current_floor e']}
             ∧ (commitment e' = commitment e ∨ commitment e' = None)))).
Proof.
  unfold step.
  set (delta := if decide (_motor_direction e = Some UP) then 1
                else if decide (_motor_direction e = Some DOWN) then -1
                else 0).
  assert (delta = 0 ∨ delta = 1 ∨ delta = -1) as Hdelta.
  { unfold delta. repeat case_decide; auto. }
  destruct (decide (delta ≠ 0)) as [Hmove|Hstay].
  - destruct (on_floor_changed (move delta e)) as [e1|x] eqn:Hchanged; [|done].
    simpl. unfold py_assert. repeat case_decide; simpl; try done.
    intros [= <-]. right. exists delta. split; [tauto|].
    destruct (on_floor_changed_frame _ _ Hchanged)
      as [->|(Hp & Hfl & Hvis & Hm & Hw & Hd & Hu & Hdn & Hc)].
    + split; [done|]. split; [done|]. by left.
    + rewrite Hfl. split; [done|]. split; [by rewrite Hvis|]. right.
      split; [exact Hp|]. by rewrite Hd, Hu, Hdn.
  - destruct (on_ready e) as [e1|x] eqn:Hready; [|done].
    simpl. unfold py_assert. repeat case_decide; simpl; try done.
    intros [= <-]. left.
    destruct (on_ready_frame _ _ Hready) as (? & ? & ? & ? & ? & ? & _).
    done.
Qed.

Lemma on_ready_ok (e : Elevator) :
  is_direction (commitment e) → ∃ e', on_ready e = Ok e'.
Proof.
  intros Hdir. destruct (on_ready_eq e Hdir) as (o & _ & ->).
  destruct o as [d|]; [|by eauto].
  destruct (commitment (release_reacquire e)); by eauto.
Qed.

Lemma on_floor_changed_raise (e : Elevator) (x : exn) :
  is_direction (commitment e) →
  on_floor_changed e = Raise x →
  x = AssertionError.
Proof.
  intros Hdir Hraise.
  destruct (current_destination_ok e Hdir) as [[d|] Hd].
  - destruct (decide (_current_floor e = d)) as [Hhere|Haway].
    + rewrite <- Hhere in Hd.
      destruct (on_floor_changed_stop e Hd) as [(_ & Heq)|(next & _ & Heq)];
        by rewrite Heq in Hraise.
    + by rewrite (on_floor_changed_pass e d Hd Haway) in Hraise.
  - unfold on_floor_changed in Hraise. rewrite Hd in Hraise.
    by injection Hraise as <-.
Qed.

Lemma step_raise (e : Elevator) (x : exn) :
  is_direction (commitment e) →
  step e = Raise x →
  x = AssertionError.
Proof.
  intros Hdir. unfold step.
  set (delta := if decide (_motor_direction e = Some UP) then 1
                else if decide (_motor_direction e = Some DOWN) then -1
                else 0).
  destruct (decide (delta ≠ 0)) as [Hmove|Hstay].
  - destruct (on_floor_changed (move delta e)) as [e1|x1] eqn:Hchanged; simpl.
    + unfold py_assert. repeat case_decide; simpl; try done; by intros [= <-].
    + intros [= <-]. by apply (on_floor_changed_raise (move delta e)).
  - destruct (on_ready_ok e Hdir) as [e1 ->]. simpl.
    unfold py_assert. repeat case_decide; simpl; try done; by intros [= <-].
Qed.

Lemma apply_event_direction (ev : event) (e : Elevator) :
  is_direction (commitment e) →
  match apply_event ev e with
  | Ok e' => is_direction (commitment e')
  | Raise x => expected_exception [ev] x
  end.
Proof.
  intros Hdir. destruct ev as [floor direction|floor|]; simpl.
  - unfold call, on_called. repeat case_decide; [done..|].
    right. exists floor, direction. split; [by apply list_elem_of_singleton|].
    done.
  - unfold on_floor_selected. by destruct (_ && _).
  - destruct (step e) as [e'|x] eqn:Hstep.
    + destruct (step_frame e e' Hstep)
        as [(_ & _ & _ & _ & _ & Hd)|(delta & _ & _ & _ & [->|Hstop])];
        [done..|].
      destruct Hstop as (_ & _ & _ & _ & _ & _ & [-> | ->]); [done|by left].
    + left. by apply (step_raise e).
Qed.

Lemma run_direction (evs : list event) (e : Elevator) :
  is_direction (commitment e) →
  match run evs e with
  | Ok e' => is_direction (commitment e')
  | Raise x => expected_exception evs x
  end.
Proof.
  revert e. induction evs as [|ev evs IH]; intros e Hdir; simpl; [done|].
  pose proof (apply_event_direction ev e Hdir) as Hev.
  destruct (apply_event ev e) as [e1|x]; simpl.
  - specialize (IH e1 Hev). destruct (run evs e1) as [e2|x]; [done|].
    destruct IH as [->|(floor & direction & Hin & Hup & Hdown & ->)];
      [by left|].
    right. exists floor, direction. split; [by right|done].
  - destruct Hev as [->|(floor & direction & Hin & Hup & Hdown & ->)];
      [by left|].
    right. exists floor, direction.
    apply list_elem_of_singleton in Hin as <-. split; [by left|done].
Qed.

Lemma stops_here_up_destination (e : Elevator) :
  commitment e = Some UP →
  stops_here_up e ↔ _current_destination e = Ok (Some (_current_floor e)).
Proof.
  intros Hc. unfold stops_here_up.
  destruct (current_destination_up e Hc)
    as [(d & Hd & Hfwd & Hleast)
       |[(Hnone & d & Hd & Hback & Hgreatest)|(Hnone & Hnoback & Hd)]];
    rewrite Hd; unfold forward_up, turn_back_up, pending in *.
  - split.
    + intros [Hhere|[Hhere Htop]]; do 2 f_equal.
      * assert (d ≤ _current_floor e) by (apply Hleast; split; [done|lia]).
        lia.
      * assert (d ≤ _current_floor e) by (apply Htop; tauto). lia.
    + intros [= ->]. left. tauto.
  - split.
    + intros [Hhere|[Hhere Htop]]; [exfalso|do 2 f_equal].
      * apply (Hnone (_current_floor e)). split; [done|lia].
      * assert (d ≤ _current_floor e) by (apply Htop; tauto). lia.
    + intros [= ->]. right. split; [tauto|].
      intros f Hf. destruct (Z.le_gt_cases f (_current_floor e)); [done|].
      destruct Hf as [Hf|[Hf|Hf]].
      * destruct (Hnone f). split; [tauto|lia].
      * destruct (Hnone f). split; [tauto|lia].
      * apply Hgreatest. split; [done|lia].
  - split; [|done].
    intros [Hhere|[Hhere Htop]]; exfalso.
    + apply (Hnone (_current_floor e)). split; [done|lia].
    + apply (Hnoback (_current_floor e)). split; [done|lia].
Qed.

Lemma stops_here_down_destination (e : Elevator) :
  commitment e = Some DOWN →
  stops_here_down e ↔ _current_destination e = Ok (Some (_current_floor e)).
Proof.
  intros Hc. unfold stops_here_down.
  destruct (current_destination_down e Hc)
    as [(d & Hd & Hfwd & Hgreatest)
       |[(Hnone & d & Hd & Hback & Hleast)|(Hnone & Hnoback & Hd)]];
    rewrite Hd; unfold forward_down, turn_back_down, pending in *.
  - split.
    + intros [Hhere|[Hhere Hbottom]]; do 2 f_equal.
      * assert (_current_floor e ≤ d)
          by (apply Hgreatest; split; [done|lia]).
        lia.
      * assert (_current_floor e ≤ d) by (apply Hbottom; tauto). lia.
    + intros [= ->]. left. tauto.
  - split.
    + intros [Hhere|[Hhere Hbottom]]; [exfalso|do 2 f_equal].
      * apply (Hnone (_current_floor e)). split; [done|lia].
      * assert (_current_floor e ≤ d) by (apply Hbottom; tauto). lia.
    + intros [= ->]. right. split; [tauto|].
      intros f Hf. destruct (Z.le_gt_cases (_current_floor e) f); [done|].
      destruct Hf as [Hf|[Hf|Hf]].
      * destruct (Hnone f). split; [tauto|lia].
      * apply Hleast. split; [done|lia].
      * destruct (Hnone f). split; [tauto|lia].
  - split; [|done].
    intros [Hhere|[Hhere Hbottom]]; exfalso.
    + apply (Hnone (_current_floor e)). split; [done|lia].
    + apply (Hnoback (_current_floor e)). split; [done|lia].
Qed.

Lemma on_floor_changed_decision (e : Elevator) :
  is_direction (commitment e) →
  (_current_destination e = Ok (Some (_current_floor e)) →
   ∃ e', on_floor_changed e = Ok e'
     ∧ motor_writes e' = None :: motor_writes e
     ∧ ¬ pending e' (_current_floor e))
  ∧ (_current_destination e ≠ Ok (Some (_current_floor e)) →
     on_floor_changed e = Ok e ∨ on_floor_changed e = Raise AssertionError).
Proof.
  intros Hdir. split.
  - intros Hd.
    assert (∀ dir, ¬ pending
      (set_directionality dir
         (discard_floor (_current_floor e) (set_motor_direction None e)))
      (_current_floor e)) as Hgone.
    { intros dir Hp.
      assert (pending (discard_floor (_current_floor e)
                         (set_motor_direction None e)) (_current_floor e))
        as Hp' by exact Hp.
      apply pending_discard_floor in Hp'. by destruct Hp'. }
    destruct (on_floor_changed_stop e Hd) as [(_ & ->)|(next & _ & ->)].
    + eexists. split; [done|]. split; [done|]. apply Hgone.
    + eexists. split; [done|]. split; [done|].
      intros Hp. apply pending_discard_floor in Hp. by destruct Hp.
  - intros Hne.
    destruct (on_floor_changed_elsewhere e Hne) as [Hsame|[x Hraise]];
      [by left|].
    right. by rewrite Hraise, (on_floor_changed_raise e x Hdir Hraise).
Qed.

(** X1. From a state whose directionality is [None], [UP] or [DOWN], a run
    of events with any floors and directions keeps the directionality among
    these values, so that [_current_destination] returns without raising;
    and the only exceptions a run raises are a failed assertion and the
    [ValueError] of a hall call whose direction is neither [UP] nor [DOWN]:
    the [ValueError] of [_current_destination] and that of [min] and [max]
    on an empty set are never raised. *)
Theorem only_expected_exceptions (evs : list event) (e : Elevator) :
  is_direction (commitment e) →
  match run evs e with
  | Ok e' =>
      is_direction (commitment e') ∧ ∃ o, _current_destination e' = Ok o
  | Raise x => expected_exception evs x
  end.
Proof.
  intros Hdir. pose proof (run_direction evs e Hdir) as Hrun.
  destruct (run evs e) as [e'|x]; [|done].
  split; [done|]. by apply current_destination_ok.
Qed.

(** X2. A request leaves its set only when the car stops at its floor: if an
    event removes floor [f] from one of the three sets, the event is a time
    step in which the car has moved to [f], the motor has been commanded to
    stop, and [f] has been removed from all three sets. *)
Theorem requests_leave_only_at_a_stop
    (ev : event) (e e' : Elevator) (f : Z) :
  apply_event ev e = Ok e' →
  request_removed f e e' →
  ev = Step
  ∧ _current_floor e' = f
  ∧ _visited_floors e' = _visited_floors e ++ [f]
  ∧ _motor_direction e' = None
  ∧ motor_writes e' = None :: motor_writes e
  ∧ destinations e' = destinations e ∖ {[f]}
  ∧ going_up e' = going_up e ∖ {[f]}
  ∧ going_down e' = going_down e ∖ {[f]}.
Proof.
  intros Hev Hgone. unfold request_removed in Hgone.
  destruct ev as [floor direction|floor|]; simpl in Hev.
  - exfalso. unfold call, on_called in Hev.
    repeat case_decide; try done; injection Hev as <-;
      unfold destinations, going_up, going_down in Hgone; simpl in Hgone;
      rewrite ?elem_of_union in Hgone; tauto.
  - exfalso. unfold select_floor, on_floor_selected in Hev.
    injection Hev as <-. destruct (_ && _); [tauto|].
    unfold destinations, going_up, going_down in Hgone; simpl in Hgone.
    rewrite ?elem_of_union in Hgone. tauto.
  - split; [done|].
    destruct (step_frame e e' Hev)
      as [(_ & _ & Hd & Hu & Hdn & _)|(delta & _ & Hfl & Hvis & [->|Hstop])].
    + rewrite Hd, Hu, Hdn in Hgone. tauto.
    + exfalso. unfold destinations, going_up, going_down in Hgone.
      simpl in Hgone. tauto.
    + destruct Hstop as (_ & Hm & Hw & Hd & Hu & Hdn & _).
      assert (f = _current_floor e') as ->.
      { rewrite Hd, Hu, Hdn in Hgone.
        rewrite !elem_of_difference, !elem_of_singleton in Hgone.
        destruct (decide (f = _current_floor e')); [done|tauto]. }
      done.
Qed.

(** X3. What [on_floor_changed] decides for a committed car is a matter of
    the current floor: committed up it stops (writes [None] to the motor and
    clears the floor) exactly where the floor is a destination or an up
    call, or a down call with nothing pending above; elsewhere it changes
    nothing, or fails its assertion.  Committed down, symmetrically. *)
Theorem committed_car_stops_where_due (e : Elevator) :
  (commitment e = Some UP →
     (stops_here_up e →
      ∃ e', on_floor_changed e = Ok e'
        ∧ motor_writes e' = None :: motor_writes e
        ∧ ¬ pending e' (_current_floor e))
     ∧ (¬ stops_here_up e →
        on_floor_changed e = Ok e
        ∨ on_floor_changed e = Raise AssertionError))
  ∧ (commitment e = Some DOWN →
     (stops_here_down e →
      ∃ e', on_floor_changed e = Ok e'
        ∧ motor_writes e' = None :: motor_writes e
        ∧ ¬ pending e' (_current_floor e))
     ∧ (¬ stops_here_down e →
        on_floor_changed e = Ok e
        ∨ on_floor_changed e = Raise AssertionError)).
Proof.
  split; intros Hc.
  - assert (is_direction (commitment e)) as Hdir
      by (rewrite Hc; right; by left).
    destruct (on_floor_changed_decision e Hdir) as [Hstop Hpass].
    pose proof (stops_here_up_destination e Hc) as Hiff.
    split; intros Hhere; [apply Hstop|apply Hpass]; tauto.
  - assert (is_direction (commitment e)) as Hdir
      by (rewrite Hc; right; by right).
    destruct (on_floor_changed_decision e Hdir) as [Hstop Hpass].
    pose proof (stops_here_down_destination e Hc) as Hiff.
    split; intros Hhere; [apply Hstop|apply Hpass]; tauto.
Qed.

End HandlerFrames.

(** ** Further properties of the simulator *)

Section Reachable.
Context `{SetIteration}.

Lemma one_floor_apart_snoc (floors : list Z) (a b : Z) :
  last floors = Some a →
  Z.abs (b - a) = 1 →
  one_floor_apart floors →
  one_floor_apart (floors ++ [b]).
Proof.
  intros Hlast Hstep. induction floors as [|x [|y rest] IH]; simpl.
  - done.
  - injection Hlast as ->. done.
  - intros [Hxy Hrest]. split; [done|]. by apply IH.
Qed.

Lemma well_logged_init (starting_floor : Z) :
  valid_floor starting_floor →
  well_logged (Elevator_init ElevatorLogic_init starting_floor).
Proof.
  intros Hfloor. split; [done|]. split; [done|]. by apply Forall_singleton.
Qed.

Lemma apply_event_well_logged (ev : event) (e e' : Elevator) :
  apply_event ev e = Ok e' →
  valid_floor (_current_floor e') →
  well_logged e →
  well_logged e'.
Proof.
  intros Hev Hvalid (Hlast & Happart & Hall).
  assert ((_current_floor e' = _current_floor e
           ∧ _visited_floors e' = _visited_floors e)
          ∨ (∃ delta, (delta = 1 ∨ delta = -1)
               ∧ _current_floor e' = _current_floor e + delta
               ∧ _visited_floors e' = _visited_floors e ++ [_current_floor e']))
    as [[Hfl Hvis]|(delta & Hdelta & Hfl & Hvis)].
  { destruct ev as [floor direction|floor|]; simpl in Hev.
    - left. unfold call, on_called in Hev.
      repeat case_decide; try done; by injection Hev as <-.
    - left. unfold select_floor, on_floor_selected in Hev.
      injection Hev as <-. by destruct (_ && _).
    - destruct (step_frame e e' Hev)
        as [(? & ? & _)|(delta & ? & ? & ? & _)]; [by left|right; eauto]. }
  - unfold well_logged. by rewrite Hfl, Hvis.
  - unfold well_logged. rewrite Hvis. split; [by rewrite last_snoc|].
    split.
    + apply (one_floor_apart_snoc _ (_current_floor e)); [done| |done]. lia.
    + apply Forall_app. split; [done|]. by apply Forall_singleton.
Qed.

Lemma run_well_logged (evs : list event) (e e' : Elevator) :
  consistent e →
  well_logged e →
  Forall valid_event evs →
  run evs e = Ok e' →
  well_logged e'.
Proof.
  intros Hcons Hlog Hevs. revert e Hcons Hlog.
  induction Hevs as [|ev evs Hev _ IH]; intros e Hcons Hlog; simpl.
  - by intros [= <-].
  - destruct (apply_event_consistent ev e Hcons Hev)
      as (e1 & ws & He1 & Hcons1 & _).
    rewrite He1. simpl. apply IH; [done|].
    apply (apply_event_well_logged ev e e1 He1); [exact (proj1 Hcons1)|done].
Qed.

(** X4. In every reachable state of the simulator the car and the pending
    requests are inside the building, a running motor runs in the committed
    direction, and a commitment has a request strictly ahead and a
    destination: the condition under which [on_ready] releases its
    commitment never holds. *)
Theorem reachable_states_are_coherent (e : Elevator) :
  reachable e →
  1 ≤ _current_floor e ≤ FLOOR_COUNT
  ∧ (∀ f, pending e f → 1 ≤ f ≤ FLOOR_COUNT)
  ∧ is_direction (commitment e)
  ∧ (_motor_direction e ≠ None → _motor_direction e = commitment e)
  ∧ (commitment e = Some UP → ∃ f, pending e f ∧ _current_floor e < f)
  ∧ (commitment e = Some DOWN → ∃ f, pending e f ∧ f < _current_floor e)
  ∧ (commitment e ≠ None → ∃ d, _current_destination e = Ok (Some d)).
Proof.
  intros Hcons%reachable_consistent.
  pose proof Hcons as (? & ? & ? & ? & ? & ?).
  do 6 (split; [done|]). intros Hc.
  destruct (consistent_destination e Hcons) as ([d|] & Ho & Hnone);
    [by exists d|]. by destruct Hc; apply Hnone.
Qed.

(** X5. In every reachable state the log of visited floors ends with the
    current floor, successive entries are exactly one floor apart, and
    every entry is a floor of the building. *)
Theorem visited_floors_are_a_walk (e : Elevator) :
  reachable e →
  last (_visited_floors e) = Some (_current_floor e)
  ∧ one_floor_apart (_visited_floors e)
  ∧ Forall (λ f, 1 ≤ f ≤ FLOOR_COUNT) (_visited_floors e).
Proof.
  intros (start & evs & Hstart & Hevs & Hrun).
  exact (run_well_logged evs _ e (consistent_init start Hstart)
           (well_logged_init start Hstart) Hevs Hrun).
Qed.

(** *** Running until the car stops *)

Lemma run_app (evs1 evs2 : list event) (e : Elevator) :
  run (evs1 ++ evs2) e = run evs1 e ≫= run evs2.
Proof.
  revert e. induction evs1 as [|ev evs1 IH]; intros e; simpl; [done|].
  destruct (apply_event ev e) as [e1|x]; simpl; [apply IH|done].
Qed.

Lemma reachable_run (evs : list event) (e e' : Elevator) :
  reachable e →
  Forall valid_event evs →
  run evs e = Ok e' →
  reachable e'.
Proof.
  intros (start & evs0 & Hstart & Hevs0 & Hrun0) Hevs Hrun.
  exists start, (evs0 ++ evs). split; [done|].
  split; [by apply Forall_app|]. by rewrite run_app, Hrun0.
Qed.

Lemma travel_cons (c delta : Z) (k : nat) :
  travel c delta (S k) = (c + delta) :: travel (c + delta) delta k.
Proof.
  unfold travel. simpl. f_equal; [f_equal; lia|].
  rewrite <- fmap_S_seq, <- list_fmap_compose.
  apply list_fmap_ext. intros _ i _. simpl. lia.
Qed.

Lemma running_room (e : Elevator) (delta : Z) :
  consistent e →
  running e delta →
  1 ≤ room delta (_current_floor e) ≤ FLOOR_COUNT - 1.
Proof.
  intros (Hfloor & Hvalid & _ & Hmotor & Hup & Hdown) Hrun.
  unfold room, valid_floor in *.
  destruct Hrun as [[Hm ->]|[Hm ->]].
  - assert (commitment e = Some UP) as Hc.
    { rewrite <- Hm. symmetry. apply Hmotor. by rewrite Hm. }
    destruct (Hup Hc) as (f & Hf & Hlt). specialize (Hvalid f Hf).
    rewrite decide_True by done. lia.
  - assert (commitment e = Some DOWN) as Hc.
    { rewrite <- Hm. symmetry. apply Hmotor. by rewrite Hm. }
    destruct (Hdown Hc) as (f & Hf & Hlt). specialize (Hvalid f Hf).
    rewrite decide_False by done. lia.
Qed.

(** A step of a running car: it passes the next floor, or stops there. *)
Lemma step_moving (e : Elevator) (delta : Z) :
  consistent e →
  running e delta →
  ∃ e1, step e = Ok e1
    ∧ consistent e1
    ∧ _current_floor e1 = _current_floor e + delta
    ∧ _visited_floors e1 = _visited_floors e ++ [_current_floor e + delta]
    ∧ (e1 = move delta e
       ∨ (_motor_direction e1 = None
          ∧ pending e (_current_floor e + delta)
          ∧ served (_current_floor e + delta) e e1)).
Proof.
  intros Hcons Hrun.
  destruct (on_floor_changed_consistent e delta Hcons Hrun)
    as (e1 & ws & He1 & Hcons1 & Hfl & _).
  exists e1. rewrite (step_running e delta Hrun).
  split; [apply step_asserts; [done|exact (proj1 Hcons1)]|].
  split; [done|]. split; [done|].
  destruct (on_floor_changed_frame _ _ He1)
    as [->|(Hp & _ & Hvis & Hm & _ & Hd & Hu & Hdn & _)].
  - split; [done|]. by left.
  - split; [exact Hvis|]. right. split; [done|]. split; [exact Hp|].
    split; [exact Hd|]. split; [exact Hu|exact Hdn].
Qed.

(** A step of a stopped car: [on_ready] starts the motor, unless nothing is
    pending or the car is stuck. *)
Lemma step_resting (e : Elevator) :
  consistent e →
  _motor_direction e = None →
  ∃ e1, step e = Ok e1
    ∧ consistent e1
    ∧ _current_floor e1 = _current_floor e
    ∧ _visited_floors e1 = _visited_floors e
    ∧ same_requests e e1
    ∧ ((_motor_direction e1 = None
        ∧ commitment e1 = None
        ∧ (stuck e ∨ ∀ f, ¬ pending e f))
       ∨ ∃ delta, running e1 delta).
Proof.
  intros Hcons Hm.
  destruct (on_ready_consistent e Hcons Hm) as (e1 & ws & He1 & Hcons1 & Hfl & _).
  exists e1. rewrite (step_stopped e Hm).
  split; [apply step_asserts; [done|exact (proj1 Hcons1)]|].
  split; [done|]. split; [done|].
  destruct (on_ready_frame e e1 He1) as (_ & Hvis & Hd & Hu & Hdn & _).
  split; [done|]. split; [done|].
  pose proof Hcons as (_ & _ & Hdir & _).
  destruct (on_ready_eq e Hdir) as (o & Ho & Heq).
  destruct (consistent_destination e Hcons) as (o' & Ho' & Hnone).
  rewrite (release_reacquire_consistent e Hcons) in *.
  rewrite Ho in Ho'. injection Ho' as <-.
  rewrite Heq in He1. clear Heq.
  destruct o as [d|].
  - destruct (commitment e) as [dir|] eqn:Hc.
    + injection He1 as <-. right.
      destruct (is_direction_cases dir Hdir) as [-> | ->];
        [exists 1; by left|exists (-1); by right].
    + injection He1 as <-.
      destruct (current_destination_some e d Ho) as (Hpend & _).
      destruct (_direction_to e d) as [dir|] eqn:Hto.
      * right. pose proof (direction_to_is_direction e d) as Hdir'.
        rewrite Hto in Hdir'.
        destruct (is_direction_cases dir Hdir') as [-> | ->];
          [exists 1; by left|exists (-1); by right].
      * left. split; [done|]. split; [done|]. left.
        apply direction_to_none in Hto as ->. done.
  - injection He1 as <-. specialize (Hnone eq_refl).
    left. split; [done|]. split; [done|]. right.
    intros f Hf.
    destruct (current_destination_none e f Ho Hf) as [[Hc' _]|[Hc' _]];
      by rewrite Hnone in Hc'.
Qed.

Lemma run_while_moving_stopped (fuel : nat) (e : Elevator) :
  _motor_direction e = None →
  run_while_moving fuel e = Some (Ok e).
Proof. intros Hm. destruct fuel; simpl; by rewrite Hm. Qed.

Lemma run_while_moving_running (fuel : nat) (e : Elevator) (delta : Z) :
  running e delta →
  run_while_moving (S fuel) e = run_until_stopped fuel e.
Proof. intros [[Hm _]|[Hm _]]; simpl; by rewrite Hm. Qed.

(** A running car stops within the room in front of it, at the first floor
    where [on_floor_changed] stops; it passes the floors before. *)
Lemma while_moving (fuel : nat) (e : Elevator) (delta : Z) :
  consistent e →
  running e delta →
  room delta (_current_floor e) ≤ Z.of_nat fuel →
  ∃ k e',
    run_while_moving fuel e = Some (Ok e')
    ∧ run (replicate k Step) e = Ok e'
    ∧ (1 ≤ k)%nat
    ∧ Z.of_nat k ≤ room delta (_current_floor e)
    ∧ consistent e'
    ∧ _motor_direction e' = None
    ∧ _current_floor e' = _current_floor e + delta * Z.of_nat k
    ∧ _visited_floors e'
      = _visited_floors e ++ travel (_current_floor e) delta k
    ∧ pending e (_current_floor e')
    ∧ served (_current_floor e') e e'.
Proof.
  revert e. induction fuel as [|fuel IH]; intros e Hcons Hrun Hroom.
  { pose proof (running_room e delta Hcons Hrun). lia. }
  rewrite (run_while_moving_running fuel e delta Hrun). unfold run_until_stopped.
  destruct (step_moving e delta Hcons Hrun)
    as (e1 & He1 & Hcons1 & Hfl & Hvis & [->|(Hm & Hp & Hserved)]).
  - assert (running (move delta e) delta) as Hrun1 by exact Hrun.
    assert (room delta (_current_floor (move delta e))
            = room delta (_current_floor e) - 1) as Hroom1.
    { unfold room. simpl. destruct Hrun as [[_ ->]|[_ ->]].
      - rewrite !decide_True by done. lia.
      - rewrite !decide_False by done. lia. }
    destruct (IH (move delta e) Hcons1 Hrun1)
      as (k & e' & Hwhile & Hsteps & Hk & Hbound & Hcons' & Hm' & Hfl'
          & Hvis' & Hp' & Hserved'); [lia|].
    exists (S k), e'. rewrite He1. simpl. rewrite He1. simpl.
    split; [done|]. split; [done|]. split; [lia|]. split; [lia|].
    split; [done|]. split; [done|].
    split; [rewrite Hfl'; simpl; lia|].
    split; [|by split].
    rewrite Hvis'. simpl. by rewrite travel_cons, <- app_assoc.
  - exists 1%nat, e1. rewrite He1. simpl. rewrite He1. simpl.
    pose proof (running_room e delta Hcons Hrun).
    split; [by apply run_while_moving_stopped|].
    split; [done|]. split; [lia|]. split; [lia|].
    split; [done|]. split; [done|].
    rewrite Hfl. split; [lia|]. split; [|by split].
    rewrite Hvis. unfold travel. simpl. do 2 f_equal. lia.
Qed.

(** [run_until_stopped] from a consistent state: one step, then the car
    runs in one direction to the first floor where it stops. *)
Lemma run_until_stopped_cases (fuel : nat) (e : Elevator) :
  consistent e →
  FLOOR_COUNT - 1 ≤ Z.of_nat fuel →
  ∃ k j delta e',
    run_until_stopped fuel e = Some (Ok e')
    ∧ run (replicate k Step) e = Ok e'
    ∧ (1 ≤ k)%nat
    ∧ Z.of_nat k ≤ FLOOR_COUNT
    ∧ consistent e'
    ∧ _motor_direction e' = None
    ∧ (delta = 1 ∨ delta = -1)
    ∧ _current_floor e' = _current_floor e + delta * Z.of_nat j
    ∧ _visited_floors e'
      = _visited_floors e ++ travel (_current_floor e) delta j
    ∧ ((j = 0%nat
        ∧ same_requests e e'
        ∧ commitment e' = None
        ∧ (stuck e ∨ ∀ f, ¬ pending e f))
       ∨ ((1 ≤ j)%nat
          ∧ pending e (_current_floor e')
          ∧ served (_current_floor e') e e')).
Proof.
  intros Hcons Hfuel.
  destruct (consistent_motor e Hcons) as [Hm|Hrunning].
  - destruct (step_resting e Hcons Hm)
      as (e1 & He1 & Hcons1 & Hfl1 & Hvis1 & Hsame
          & [(Hm1 & Hc1 & Hwhy)|(delta & Hrun1)]).
    + exists 1%nat, 0%nat, 1, e1. unfold run_until_stopped. simpl.
      rewrite He1. simpl.
      split; [by apply run_while_moving_stopped|]. split; [done|].
      split; [lia|]. split; [unfold FLOOR_COUNT; lia|].
      split; [done|]. split; [done|]. split; [by left|].
      split; [lia|]. split; [by rewrite app_nil_r|]. by left.
    + pose proof (running_room e1 delta Hcons1 Hrun1) as Hroom.
      destruct (while_moving fuel e1 delta Hcons1 Hrun1)
        as (k & e' & Hwhile & Hsteps & Hk & Hbound & Hcons' & Hm' & Hfl'
            & Hvis' & Hp' & Hserved'); [lia|].
      exists (S k), k, delta, e'. unfold run_until_stopped. simpl.
      rewrite He1. simpl.
      split; [done|]. split; [done|]. split; [lia|]. split; [lia|].
      split; [done|]. split; [done|].
      split; [destruct Hrun1 as [[_ ->]|[_ ->]]; auto|].
      split; [by rewrite Hfl', Hfl1|]. split; [by rewrite Hvis', Hvis1, Hfl1|].
      right. split; [done|].
      destruct Hsame as (Hd & Hu & Hdn), Hserved' as (Hd' & Hu' & Hdn').
      split.
      * unfold pending in *. by rewrite <- Hd, <- Hu, <- Hdn.
      * unfold served. by rewrite Hd', Hu', Hdn', Hd, Hu, Hdn.
  - assert (∃ delta, running e delta) as [delta Hrun].
    { destruct Hrunning as [[Hm _]|[Hm _]];
        [exists 1; by left|exists (-1); by right]. }
    pose proof (running_room e delta Hcons Hrun) as Hroom.
    destruct (while_moving (S fuel) e delta Hcons Hrun)
      as (k & e' & Hwhile & Hsteps & Hk & Hbound & Hcons' & Hm' & Hfl'
          & Hvis' & Hp' & Hserved'); [lia|].
    rewrite (run_while_moving_running fuel e delta Hrun) in Hwhile.
    exists k, k, delta, e'.
    split; [done|]. split; [done|]. split; [lia|]. split; [lia|].
    split; [done|]. split; [done|].
    split; [destruct Hrun as [[_ ->]|[_ ->]]; auto|].
    split; [done|]. split; [done|]. right. done.
Qed.

Lemma elem_of_pending_floors (e : Elevator) (f : Z) :
  f ∈ pending_floors e ↔ pending e f.
Proof. unfold pending_floors, pending. rewrite !elem_of_union. tauto. Qed.

Lemma served_pending_floors (f : Z) (e e' : Elevator) :
  served f e e' → pending_floors e' = pending_floors e ∖ {[f]}.
Proof.
  intros (Hd & Hu & Hdn). apply set_eq. intros x.
  unfold pending_floors. rewrite Hd, Hu, Hdn.
  rewrite !elem_of_difference, !elem_of_union, !elem_of_difference. tauto.
Qed.

Lemma served_not_stuck (e e' : Elevator) :
  served (_current_floor e') e e' → ¬ stuck e'.
Proof.
  intros Hserved%served_pending_floors [_ Hp%elem_of_pending_floors].
  rewrite Hserved, elem_of_difference, elem_of_singleton in Hp. tauto.
Qed.

(** With nothing pending, the car is idle and a step changes nothing. *)
Lemma step_idle (e : Elevator) :
  consistent e →
  (∀ f, ¬ pending e f) →
  _motor_direction e = None ∧ commitment e = None ∧ step e = Ok e.
Proof.
  intros Hcons Hnone.
  pose proof Hcons as (Hfloor & _ & Hdir & Hmotor & Hup & Hdown).
  assert (commitment e = None) as Hc.
  { destruct (commitment e) as [dir|] eqn:Hc; [exfalso|done].
    destruct (is_direction_cases dir Hdir) as [-> | ->].
    - destruct (Hup eq_refl) as (f & Hf & _). by apply (Hnone f).
    - destruct (Hdown eq_refl) as (f & Hf & _). by apply (Hnone f). }
  assert (_motor_direction e = None) as Hm.
  { destruct (_motor_direction e) eqn:Hm; [|done].
    rewrite <- Hc. apply Hmotor. done. }
  split; [done|]. split; [done|].
  rewrite (step_stopped e Hm). apply step_asserts; [|done].
  destruct (on_ready_eq e Hdir) as (o & Ho & ->).
  rewrite (release_reacquire_consistent e Hcons) in *.
  destruct o as [d|].
  - destruct (current_destination_some e d Ho) as (Hp & _).
    by destruct (Hnone d).
  - rewrite <- Hc. by rewrite set_directionality_same.
Qed.

(** Without new requests, a car that is not stuck serves one pending floor
    per run, until nothing is pending. *)
Lemma drain (n : nat) (e : Elevator) :
  consistent e →
  ¬ stuck e →
  size (pending_floors e) = n →
  ∃ k e',
    Z.of_nat k ≤ FLOOR_COUNT * Z.of_nat n
    ∧ run (replicate k Step) e = Ok e'
    ∧ consistent e'
    ∧ pending_floors e' = ∅.
Proof.
  revert e. induction n as [|n IH]; intros e Hcons Hfree Hsize.
  - exists 0%nat, e. split; [lia|]. split; [done|]. split; [done|].
    by apply leibniz_equiv, size_empty_iff.
  - destruct (run_until_stopped_cases (Z.to_nat FLOOR_COUNT) e Hcons)
      as (k & j & delta & e1 & _ & Hsteps & _ & Hk & Hcons1 & _ & _ & _ & _
          & [(_ & _ & _ & [Hstuck|Hnone])|(_ & Hp & Hserved)]);
      [unfold FLOOR_COUNT; lia|done| |].
    + exfalso. assert (pending_floors e = ∅) as Hempty.
      { apply set_eq. intros f. rewrite elem_of_pending_floors.
        split; [by intros ?%Hnone|by intros ?%not_elem_of_empty]. }
      by rewrite Hempty, size_empty in Hsize.
    + pose proof (served_pending_floors _ _ _ Hserved) as Hrest.
      assert (size (pending_floors e1) = n) as Hsize1.
      { rewrite Hrest, size_difference, size_singleton, Hsize; [lia|].
        apply singleton_subseteq_l. by apply elem_of_pending_floors. }
      destruct (IH e1 Hcons1 (served_not_stuck _ _ Hserved) Hsize1)
        as (k2 & e2 & Hk2 & Hsteps2 & Hcons2 & Hempty).
      exists (k + k2)%nat, e2. split; [lia|].
      split; [|done].
      by rewrite replicate_add, run_app, Hsteps.
Qed.

(** X6. From every reachable state [run_until_stopped] ends: its loop
    needs at most [FLOOR_COUNT - 1] iterations, it raises nothing, it takes
    between 1 and [FLOOR_COUNT] steps in all, and it leaves the motor
    stopped, in a reachable state. *)
Theorem run_until_stopped_terminates (fuel : nat) (e : Elevator) :
  reachable e →
  FLOOR_COUNT - 1 ≤ Z.of_nat fuel →
  ∃ k e',
    run_until_stopped fuel e = Some (Ok e')
    ∧ (1 ≤ k)%nat
    ∧ Z.of_nat k ≤ FLOOR_COUNT
    ∧ run (replicate k Step) e = Ok e'
    ∧ _motor_direction e' = None
    ∧ reachable e'.
Proof.
  intros Hreach Hfuel.
  destruct (run_until_stopped_cases fuel e
              (reachable_consistent e Hreach) Hfuel)
    as (k & j & delta & e' & Hrun & Hsteps & Hk & Hbound & _ & Hm & _).
  exists k, e'. do 5 (split; [done|]).
  apply (reachable_run (replicate k Step) e e' Hreach); [|done].
  apply Forall_replicate. done.
Qed.

(** X7. [run_until_stopped] from a reachable state is one sweep: the car
    visits [j] successive floors in one direction and turns nowhere.  If it
    has not moved, no request has changed; if it has, it ends at a floor
    that was pending, and that floor alone has been removed from the three
    sets: the floors passed on the way keep their requests. *)
Theorem run_until_stopped_is_one_sweep (fuel : nat) (e : Elevator) :
  reachable e →
  FLOOR_COUNT - 1 ≤ Z.of_nat fuel →
  ∃ e' delta j,
    run_until_stopped fuel e = Some (Ok e')
    ∧ (delta = 1 ∨ delta = -1)
    ∧ _current_floor e' = _current_floor e + delta * Z.of_nat j
    ∧ _visited_floors e'
      = _visited_floors e ++ travel (_current_floor e) delta j
    ∧ (j = 0%nat → same_requests e e')
    ∧ ((1 ≤ j)%nat →
       pending e (_current_floor e') ∧ served (_current_floor e') e e').
Proof.
  intros Hreach Hfuel.
  destruct (run_until_stopped_cases fuel e
              (reachable_consistent e Hreach) Hfuel)
    as (k & j & delta & e' & Hrun & _ & _ & _ & _ & _ & Hdelta & Hfl & Hvis
        & [(-> & Hsame & _)|(Hj & Hp & Hserved)]).
  - exists e', delta, 0%nat. do 4 (split; [done|]).
    split; [done|]. intros ?. lia.
  - exists e', delta, j. do 4 (split; [done|]).
    split; [intros ->; lia|done].
Qed.

(** X8. From a reachable state that is not stuck and has a pending request,
    [run_until_stopped] serves a floor: the car leaves its floor and stops
    at a floor that was pending, one pending floor less is left, and the
    state it ends in is not stuck. *)
Theorem run_until_stopped_serves_a_floor
    (fuel : nat) (e : Elevator) (f : Z) :
  reachable e →
  ¬ stuck e →
  pending e f →
  FLOOR_COUNT - 1 ≤ Z.of_nat fuel →
  ∃ e',
    run_until_stopped fuel e = Some (Ok e')
    ∧ _current_floor e' ≠ _current_floor e
    ∧ _current_floor e' ∈ pending_floors e
    ∧ pending_floors e' = pending_floors e ∖ {[_current_floor e']}
    ∧ size (pending_floors e) = S (size (pending_floors e'))
    ∧ ¬ stuck e'.
Proof.
  intros Hreach Hfree Hf Hfuel.
  destruct (run_until_stopped_cases fuel e
              (reachable_consistent e Hreach) Hfuel)
    as (k & j & delta & e' & Hrun & _ & _ & _ & _ & _ & Hdelta & Hfl & _
        & [(_ & _ & _ & [Hstuck|Hnone])|(Hj & Hp & Hserved)]);
    [done|by destruct (Hnone f)|].
  exists e'. split; [done|].
  split; [destruct Hdelta as [-> | ->]; lia|].
  pose proof (served_pending_floors _ _ _ Hserved) as Hrest.
  apply elem_of_pending_floors in Hp.
  split; [done|]. split; [done|].
  split; [|exact (served_not_stuck _ _ Hserved)].
  rewrite Hrest, size_difference, size_singleton;
    [|by apply singleton_subseteq_l].
  assert (size (pending_floors e) ≠ 0%nat); [|lia].
  intros Hzero%size_empty_iff%leibniz_equiv.
  rewrite Hzero in Hp. by apply not_elem_of_empty in Hp.
Qed.

(** X9. Without new requests every request is served, unless the car is
    stuck: from a reachable state that is not stuck, after at most
    [FLOOR_COUNT] steps for each pending floor the three sets are empty,
    the car is idle with the motor stopped, and further steps change
    nothing. *)
Theorem requests_are_served_unless_stuck (e : Elevator) :
  reachable e →
  ¬ stuck e →
  ∃ k e',
    Z.of_nat k ≤ FLOOR_COUNT * Z.of_nat (size (pending_floors e))
    ∧ run (replicate k Step) e = Ok e'
    ∧ destinations e' = ∅
    ∧ going_up e' = ∅
    ∧ going_down e' = ∅
    ∧ _motor_direction e' = None
    ∧ commitment e' = None
    ∧ step e' = Ok e'.
Proof.
  intros Hreach Hfree.
  destruct (drain _ e (reachable_consistent e Hreach) Hfree eq_refl)
    as (k & e' & Hk & Hsteps & Hcons & Hempty).
  exists k, e'. split; [done|]. split; [done|].
  unfold pending_floors in Hempty.
  apply empty_union_L in Hempty as [[Hd Hu]%empty_union_L Hdn].
  do 3 (split; [done|]).
  apply step_idle; [done|].
  intros f [Hf|[Hf|Hf]]; [rewrite Hd in Hf|rewrite Hu in Hf|rewrite Hdn in Hf];
    by apply not_elem_of_empty in Hf.
Qed.

(** *** Running until a floor *)

Lemma run_until_floor_loop_outside (n : nat) (floor : Z) (e : Elevator) :
  consistent e →
  ¬ valid_floor floor →
  run_until_floor_loop n floor e = Raise AssertionError.
Proof.
  intros Hcons Hout. revert e Hcons.
  induction n as [|n IH]; intros e Hcons; simpl; [done|].
  destruct (step_consistent e Hcons) as (e1 & ws & -> & Hcons1 & _). simpl.
  rewrite decide_False; [by apply IH|].
  intros Hfl. apply Hout. rewrite <- Hfl. exact (proj1 Hcons1).
Qed.

Lemma run_until_floor_loop_idle (n : nat) (floor : Z) (e : Elevator) :
  consistent e →
  (∀ f, ¬ pending e f) →
  floor ≠ _current_floor e →
  run_until_floor_loop n floor e = Raise AssertionError.
Proof.
  intros Hcons Hnone Hne.
  destruct (step_idle e Hcons Hnone) as (_ & _ & Hstep).
  induction n as [|n IH]; simpl; [done|].
  rewrite Hstep. simpl. by rewrite decide_False.
Qed.

(** X10. When [run_until_floor] returns, the car is at the floor asked for,
    after at least one and at most 100 steps, and at no step before was it
    there; the floor at which the car stood when the call was made does not
    count. *)
Theorem run_until_floor_reaches_the_floor (floor : Z) (e e' : Elevator) :
  run_until_floor floor e = Ok e' →
  _current_floor e' = floor
  ∧ ∃ k, (1 ≤ k ≤ 100)%nat
      ∧ run (replicate k Step) e = Ok e'
      ∧ ∀ j e1, (1 ≤ j < k)%nat →
          run (replicate j Step) e = Ok e1 → _current_floor e1 ≠ floor.
Proof.
  unfold run_until_floor. generalize 100%nat. intros n. revert e.
  induction n as [|n IH]; intros e; simpl; [done|].
  destruct (step e) as [e1|x] eqn:Hstep; simpl; [|done].
  destruct (decide (_current_floor e1 = floor)) as [Hhere|Haway].
  - intros [= <-]. split; [done|]. exists 1%nat. simpl. rewrite Hstep.
    split; [lia|]. split; [done|]. intros j e2 ?. lia.
  - intros (Hfl & k & Hk & Hsteps & Hleast)%IH. split; [done|].
    exists (S k). simpl. rewrite Hstep. simpl.
    split; [lia|]. split; [done|].
    intros j e2 Hj. destruct j as [|j]; [lia|]. simpl. rewrite Hstep. simpl.
    destruct j as [|j]; [by intros [= <-]|].
    apply Hleast. lia.
Qed.

(** X11. From a reachable state [run_until_floor] fails with an
    [AssertionError] when the floor is outside the building, and when
    nothing is pending and the floor is not the current one. *)
Theorem run_until_floor_fails_out_of_reach (floor : Z) (e : Elevator) :
  reachable e →
  ¬ (1 ≤ floor ≤ FLOOR_COUNT)
  ∨ ((∀ f, ¬ pending e f) ∧ floor ≠ _current_floor e) →
  run_until_floor floor e = Raise AssertionError.
Proof.
  intros Hcons%reachable_consistent [Hout|[Hnone Hne]].
  - by apply run_until_floor_loop_outside.
  - by apply run_until_floor_loop_idle.
Qed.

(** *** How the car gets stuck *)

Lemma step_not_stuck (e e' : Elevator) :
  consistent e →
  ¬ stuck e →
  step e = Ok e' →
  ¬ stuck e'.
Proof.
  intros Hcons Hfree Hstep.
  destruct (consistent_motor e Hcons) as [Hm|Hrunning].
  - destruct (step_resting e Hcons Hm)
      as (e1 & He1 & Hcons1 & Hfl & _ & (Hd & Hu & Hdn)
          & [(_ & _ & [Hstuck|Hnone])|(delta & Hrun)]);
      rewrite He1 in Hstep; injection Hstep as <-.
    + done.
    + intros [_ Hp]. apply (Hnone (_current_floor e)).
      unfold pending in *. by rewrite <- Hfl, <- Hd, <- Hu, <- Hdn.
    + intros [Hc _]. destruct Hcons1 as (_ & _ & _ & Hmotor & _).
      destruct Hrun as [[Hm1 _]|[Hm1 _]];
        rewrite Hm1 in Hmotor; specialize (Hmotor ltac:(done));
        by rewrite Hc in Hmotor.
  - assert (∃ delta, running e delta) as [delta Hrun].
    { destruct Hrunning as [[Hm _]|[Hm _]];
        [exists 1; by left|exists (-1); by right]. }
    destruct (step_moving e delta Hcons Hrun)
      as (e1 & He1 & _ & Hfl & _ & [->|(_ & _ & Hserved)]);
      rewrite He1 in Hstep; injection Hstep as <-.
    + intros [Hc _]. change (commitment e = None) in Hc.
      destruct Hrunning as [[_ Hc']|[_ Hc']]; by rewrite Hc in Hc'.
    + rewrite <- Hfl in Hserved. exact (served_not_stuck _ _ Hserved).
Qed.

(** X12. The car does not get stuck by itself: when an event takes a
    reachable state that is not stuck to a stuck one, the car was idle and
    the event is a button pressed for the floor where it stands, a hall
    call or a selection in the car. *)
Theorem stuck_only_by_a_press_at_the_floor
    (ev : event) (e e' : Elevator) :
  reachable e →
  ¬ stuck e →
  apply_event ev e = Ok e' →
  stuck e' →
  commitment e = None
  ∧ _current_floor e' = _current_floor e
  ∧ ((∃ direction, ev = Call (_current_floor e) direction)
     ∨ ev = SelectFloor (_current_floor e)).
Proof.
  intros Hcons%reachable_consistent Hfree Hev [Hc Hp].
  destruct ev as [floor direction|floor|]; simpl in Hev.
  - pose proof (pending_on_called _ _ _ _ (_current_floor e') Hev) as Hiff.
    unfold call, on_called in Hev.
    assert (commitment e' = commitment e ∧ _current_floor e' = _current_floor e)
      as [Hc' Hfl] by (repeat case_decide; try done; by injection Hev as <-).
    rewrite Hc' in Hc. rewrite Hfl in *. do 2 (split; [done|]).
    left. exists direction. apply Hiff in Hp as [Hp| ->]; [|done].
    by destruct Hfree.
  - injection Hev as <-.
    assert (commitment (on_floor_selected floor e) = commitment e
            ∧ _current_floor (on_floor_selected floor e) = _current_floor e)
      as [Hc' Hfl] by (unfold on_floor_selected; by destruct (_ && _)).
    rewrite Hc' in Hc. rewrite Hfl in *. do 2 (split; [done|]).
    right. apply pending_on_floor_selected in Hp as [Hp| ->]; [|done].
    by destruct Hfree.
  - by destruct (step_not_stuck e e' Hcons Hfree Hev).
Qed.

End Reachable.

(** ** What a stopped car does, and what the tests see of it *)

Section Resting.
Context `{SetIteration}.

Lemma travel_length (c delta : Z) (k : nat) : length (travel c delta k) = k.
Proof. unfold travel. by rewrite length_fmap, length_seq. Qed.

Lemma step_committed (e : Elevator) (dir : Z) :
  consistent e →
  _motor_direction e = None →
  commitment e = Some dir →
  step e = Ok (set_motor_direction (Some dir) e).
Proof.
  intros Hcons Hm Hc. pose proof Hcons as (Hfloor & _ & Hdir & _).
  rewrite (step_stopped e Hm). apply step_asserts; [|done].
  destruct (on_ready_eq e Hdir) as (o & Ho & ->).
  destruct (consistent_destination e Hcons) as (o' & Ho' & Hnone).
  rewrite (release_reacquire_consistent e Hcons) in *.
  rewrite Ho in Ho'. injection Ho' as <-.
  destruct o as [d|]; [by rewrite Hc|].
  rewrite Hnone in Hc; done.
Qed.

Lemma step_idle_leaves (e : Elevator) :
  consistent e →
  commitment e = None →
  ¬ stuck e →
  (∃ f, pending e f) →
  ∃ d, nearest_in (_current_floor e) (pending e) d
    ∧ d ≠ _current_floor e
    ∧ step e =
        Ok (set_motor_direction (_direction_to e d)
              (set_directionality (_direction_to e d) e)).
Proof.
  intros Hcons Hc Hfree [f Hf].
  pose proof Hcons as (Hfloor & _ & Hdir & Hmotor & _).
  assert (_motor_direction e = None) as Hm.
  { destruct (_motor_direction e) eqn:Hm; [|done].
    rewrite <- Hc. by apply Hmotor. }
  destruct (current_destination_idle e Hc) as [(Hnone & _)|(d & Hd & Hnear)];
    [by destruct (Hnone f)|].
  exists d. split; [done|].
  split; [intros ->; apply Hfree; split; [done|apply Hnear]|].
  rewrite (step_stopped e Hm). apply step_asserts; [|done].
  destruct (on_ready_eq e Hdir) as (o & Ho & ->).
  rewrite (release_reacquire_consistent e Hcons) in *.
  rewrite Hd in Ho. injection Ho as <-. by rewrite Hc.
Qed.

(** X14. What a time step does to a stopped car in a reachable state.
    Committed, the car resumes in the committed direction, whatever the
    destination: a call at the floor where it stands is left behind.  With
    no commitment it does nothing when nothing is pending, only writes
    [None] to the motor when it is stuck, and otherwise commits to the
    direction of a nearest pending floor, which is another floor, and
    starts; the requests are the same after the step in every case. *)
Theorem stopped_car_resumes (e : Elevator) :
  reachable e →
  _motor_direction e = None →
  let started (dir : option Z) (logic : ElevatorLogic) :=
    {| _visited_floors := _visited_floors e;
       _current_floor := _current_floor e;
       _motor_direction := dir;
       motor_writes := dir :: motor_writes e;
       _logic_delegate := logic |} in
  match commitment e with
  | Some dir => step e = Ok (started (Some dir) (_logic_delegate e))
  | None =>
      ((∀ f, ¬ pending e f) ∧ step e = Ok e)
      ∨ (stuck e ∧ step e = Ok (started None (_logic_delegate e)))
      ∨ (∃ d dir,
           nearest_in (_current_floor e) (pending e) d
           ∧ d ≠ _current_floor e
           ∧ ((dir = UP ∧ _current_floor e < d)
              ∨ (dir = DOWN ∧ d < _current_floor e))
           ∧ step e =
               Ok (started (Some dir)
                     {| requested_destinations := destinations e;
                        requests_going_up := going_up e;
                        requests_going_down := going_down e;
                        directionality := Some dir |}))
  end.
Proof.
  intros Hcons%reachable_consistent Hm started.
  destruct (commitment e) as [dir|] eqn:Hc; [by apply step_committed|].
  destruct (decide (pending_floors e = ∅)) as [Hempty|Hsome].
  - left. assert (∀ f, ¬ pending e f) as Hnone.
    { intros f Hf%elem_of_pending_floors. rewrite Hempty in Hf.
      by apply not_elem_of_empty in Hf. }
    split; [done|]. by apply step_idle.
  - right. apply set_choose_L in Hsome as [f Hf%elem_of_pending_floors].
    destruct (decide (_current_floor e ∈ pending_floors e))
      as [Hhere%elem_of_pending_floors|Haway].
    + left. split; [by split|]. apply step_here; [done..|exact (proj1 Hcons)].
    + right.
      destruct (step_idle_leaves e Hcons Hc) as (d & Hnear & Hne & Hstep);
        [|by exists f|].
      { intros [_ Hp%elem_of_pending_floors]. done. }
      rewrite Hstep.
      destruct (Z.lt_total (_current_floor e) d) as [Hlt|[Heq|Hgt]];
        [|by destruct Hne|].
      * exists d, UP. do 2 (split; [done|]). split; [by left|].
        by rewrite (proj2 (direction_to_up e d) Hlt).
      * exists d, DOWN. do 2 (split; [done|]). split; [by right|].
        by rewrite (proj2 (direction_to_down e d) Hgt).
Qed.

(** [run_until_stopped] of a stuck car, or with nothing pending: one step
    that leaves the car, the log and the requests as they are. *)
Lemma run_until_stopped_at_rest (fuel : nat) (e : Elevator) :
  consistent e →
  stuck e ∨ (∀ f, ¬ pending e f) →
  ∃ e', run_until_stopped fuel e = Some (Ok e')
    ∧ _visited_floors e' = _visited_floors e
    ∧ _logic_delegate e' = _logic_delegate e.
Proof.
  intros Hcons Hrest. pose proof Hcons as (Hfloor & _ & _ & Hmotor & _).
  unfold run_until_stopped. destruct Hrest as [[Hc Hp]|Hnone].
  - assert (_motor_direction e = None) as Hm.
    { destruct (_motor_direction e) eqn:Hm; [|done].
      rewrite <- Hc. by apply Hmotor. }
    rewrite (step_here e Hc Hp Hm Hfloor).
    exists (set_motor_direction None e).
    split; [by apply run_while_moving_stopped|done].
  - destruct (step_idle e Hcons Hnone) as (Hm & _ & ->).
    exists e. split; [by apply run_while_moving_stopped|done].
Qed.

(** X15. The check [assertVisits([])], made on a reachable state whose log
    has been cleared, passes exactly when the car is stuck or nothing is
    pending; it then leaves every request where it is.  The check does not
    tell an elevator that has served everything from one that is stuck with
    requests pending. *)
Theorem assertVisits_nothing_means_at_rest (fuel : nat) (e : Elevator) :
  reachable e →
  FLOOR_COUNT - 1 ≤ Z.of_nat fuel →
  (stuck e ∨ (∀ f, ¬ pending e f)
   ↔ ∃ e', assertVisits fuel [] (clear_visited e) = Some (Ok e'))
  ∧ ∀ e', assertVisits fuel [] (clear_visited e) = Some (Ok e') →
      _logic_delegate e' = _logic_delegate e.
Proof.
  intros Hcons%reachable_consistent Hfuel.
  assert (consistent (clear_visited e)) as Hcons0 by exact Hcons.
  assert (∀ e', assertVisits fuel [] (clear_visited e) = Some (Ok e') →
                (stuck e ∨ (∀ f, ¬ pending e f))
                ∧ _logic_delegate e' = _logic_delegate e) as Hback.
  { intros e2 He2. unfold assertVisits in He2.
    destruct (run_until_stopped_cases fuel _ Hcons0 Hfuel)
      as (k & j & delta & e1 & Hrun & _ & _ & _ & _ & _ & _ & _ & Hvis
          & Hcases).
    rewrite Hrun in He2. unfold _assertVisited in He2.
    case_decide as Hlog; [|done]. injection He2 as <-.
    assert (j = 0%nat) as ->.
    { rewrite Hvis in Hlog. simpl in Hlog.
      apply (f_equal length) in Hlog. by rewrite travel_length in Hlog. }
    destruct Hcases as [(_ & _ & _ & Hrest)|(Hj & _)]; [|lia].
    split; [exact Hrest|].
    destruct (run_until_stopped_at_rest fuel _ Hcons0 Hrest)
      as (e3 & He3 & _ & Hlogic).
    rewrite Hrun in He3. injection He3 as <-. exact Hlogic. }
  split; [split|].
  - intros Hrest.
    destruct (run_until_stopped_at_rest fuel _ Hcons0 Hrest)
      as (e1 & He1 & Hvis & _).
    unfold assertVisits. rewrite He1. unfold _assertVisited.
    rewrite decide_True by (by rewrite Hvis). by eexists.
  - intros [e' He']. by destruct (Hback e' He').
  - intros e' He'. by destruct (Hback e' He').
Qed.

End Resting.

(** ** Button presses *)

Section Presses.
Context `{SetIteration}.

(** A press adds floors to the three sets; which ones depends on the
    press, the commitment and the current floor only. *)
Lemma press_effect (a : event) (e : Elevator) :
  is_press a →
  ∃ dr up dn : gset Z, ∀ e1,
    commitment e1 = commitment e →
    _current_floor e1 = _current_floor e →
    apply_event a e1 =
      Ok {| _visited_floors := _visited_floors e1;
            _current_floor := _current_floor e1;
            _motor_direction := _motor_direction e1;
            motor_writes := motor_writes e1;
            _logic_delegate :=
              {| requested_destinations := dr ∪ destinations e1;
                 requests_going_up := up ∪ going_up e1;
                 requests_going_down := dn ∪ going_down e1;
                 directionality := commitment e1 |} |}.
Proof.
  intros Ha. destruct a as [floor direction|floor|]; [| |done].
  - destruct Ha as [-> | ->].
    + exists ∅, {[floor]}, ∅. intros e1 _ _. simpl. unfold call, on_called.
      rewrite decide_True by done.
      unfold set_requests_going_up, with_logic. do 3 f_equal;
        rewrite ?union_empty_l_L; reflexivity.
    + exists ∅, ∅, {[floor]}. intros e1 _ _. simpl. unfold call, on_called.
      rewrite decide_False by done. rewrite decide_True by done.
      unfold set_requests_going_down, with_logic. do 3 f_equal;
        rewrite ?union_empty_l_L; reflexivity.
  - destruct (bool_decide (commitment e ≠ None)
              && bool_decide (commitment e ≠ _direction_to e floor)) eqn:Hdrop.
    + exists ∅, ∅, ∅. intros e1 Hc Hfl. simpl.
      unfold select_floor, on_floor_selected, _direction_to in *.
      rewrite <- Hc, <- Hfl in Hdrop. rewrite Hdrop.
      destruct e1 as [? ? ? ? []]. simpl.
      do 3 f_equal; rewrite ?union_empty_l_L; reflexivity.
    + exists {[floor]}, ∅, ∅. intros e1 Hc Hfl. simpl.
      unfold select_floor, on_floor_selected, _direction_to in *.
      rewrite <- Hc, <- Hfl in Hdrop. rewrite Hdrop.
      unfold set_requested_destinations, with_logic. do 3 f_equal;
        rewrite ?union_empty_l_L; reflexivity.
Qed.

(** X13. Button presses register in sets: for hall calls with direction
    [UP] or [DOWN] and for selections in the car, two presses in a row give
    the same state in either order, and a press repeated at once gives the
    state of a single press. *)
Theorem button_presses_commute (a b : event) (e : Elevator) :
  is_press a →
  is_press b →
  run [a; b] e = run [b; a] e
  ∧ run [a; a] e = run [a] e.
Proof.
  intros Ha Hb.
  destruct (press_effect a e Ha) as (dr & up & dn & Hpa).
  destruct (press_effect b e Hb) as (dr' & up' & dn' & Hpb).
  split; simpl.
  - rewrite (Hpa e), (Hpb e) by done. simpl.
    rewrite Hpa, Hpb by done. simpl.
    unfold destinations, going_up, going_down, commitment. simpl.
    do 3 f_equal; apply set_eq; intros x; rewrite !elem_of_union; tauto.
  - rewrite (Hpa e) by done. simpl. rewrite Hpa by done.
    unfold destinations, going_up, going_down, commitment. simpl.
    do 3 f_equal; apply set_eq; intros x; rewrite !elem_of_union; tauto.
Qed.

End Presses.

(** ** The further properties at concrete states *)

Ltac reach_sample_committed :=
  exists 1, [SelectFloor 3; SelectFloor 5; Call 2 (Some DOWN); Step; Step];
  split; [valid_events|]; split; [valid_events|];
  vm_compute; reflexivity.

Lemma only_expected_exceptions_witness :
  is_direction (commitment sample_committed)
  ∧ match run [Step; Call 4 None; Step] sample_committed with
    | Ok e' =>
        is_direction (commitment e') ∧ ∃ o, _current_destination e' = Ok o
    | Raise x => expected_exception [Step; Call 4 None; Step] x
    end.
Proof.
  assert (Hdir : is_direction (commitment sample_committed))
    by (right; left; reflexivity).
  split; [exact Hdir|].
  exact (@only_expected_exceptions ascending_iteration
           [Step; Call 4 None; Step] sample_committed Hdir).
Defined.

Lemma requests_leave_only_at_a_stop_witness :
  apply_event Step sample_committed = Ok sample_stopped
  ∧ request_removed 3 sample_committed sample_stopped
  ∧ Step = Step
  ∧ _current_floor sample_stopped = 3
  ∧ _visited_floors sample_stopped = _visited_floors sample_committed ++ [3]
  ∧ _motor_direction sample_stopped = None
  ∧ motor_writes sample_stopped = None :: motor_writes sample_committed
  ∧ destinations sample_stopped = destinations sample_committed ∖ {[3]}
  ∧ going_up sample_stopped = going_up sample_committed ∖ {[3]}
  ∧ going_down sample_stopped = going_down sample_committed ∖ {[3]}.
Proof.
  assert (Hev : apply_event Step sample_committed = Ok sample_stopped)
    by (vm_compute; reflexivity).
  assert (Hgone : request_removed 3 sample_committed sample_stopped).
  { left. unfold destinations. simpl. split.
    - apply elem_of_union_l. by apply elem_of_singleton.
    - intros Hin. apply elem_of_singleton in Hin. discriminate Hin. }
  split; [exact Hev|]. split; [exact Hgone|].
  exact (@requests_leave_only_at_a_stop ascending_iteration
           Step sample_committed sample_stopped 3 Hev Hgone).
Defined.

Lemma reachable_states_are_coherent_witness :
  reachable sample_committed
  ∧ 1 ≤ _current_floor sample_committed ≤ FLOOR_COUNT
  ∧ (∀ f, pending sample_committed f → 1 ≤ f ≤ FLOOR_COUNT)
  ∧ is_direction (commitment sample_committed)
  ∧ (_motor_direction sample_committed ≠ None →
     _motor_direction sample_committed = commitment sample_committed)
  ∧ (commitment sample_committed = Some UP →
     ∃ f, pending sample_committed f ∧ _current_floor sample_committed < f)
  ∧ (commitment sample_committed = Some DOWN →
     ∃ f, pending sample_committed f ∧ f < _current_floor sample_committed)
  ∧ (commitment sample_committed ≠ None →
     ∃ d, _current_destination sample_committed = Ok (Some d)).
Proof.
  assert (Hreach : reachable sample_committed) by reach_sample_committed.
  split; [exact Hreach|].
  exact (@reachable_states_are_coherent ascending_iteration
           sample_committed Hreach).
Defined.

Lemma visited_floors_are_a_walk_witness :
  reachable sample_committed
  ∧ last (_visited_floors sample_committed)
    = Some (_current_floor sample_committed)
  ∧ one_floor_apart (_visited_floors sample_committed)
  ∧ Forall (λ f, 1 ≤ f ≤ FLOOR_COUNT) (_visited_floors sample_committed).
Proof.
  assert (Hreach : reachable sample_committed) by reach_sample_committed.
  split; [exact Hreach|].
  exact (@visited_floors_are_a_walk ascending_iteration
           sample_committed Hreach).
Defined.

Lemma run_until_stopped_terminates_witness :
  reachable sample_committed
  ∧ FLOOR_COUNT - 1 ≤ Z.of_nat 5
  ∧ ∃ k e',
      run_until_stopped 5 sample_committed = Some (Ok e')
      ∧ (1 ≤ k)%nat
      ∧ Z.of_nat k ≤ FLOOR_COUNT
      ∧ run (replicate k Step) sample_committed = Ok e'
      ∧ _motor_direction e' = None
      ∧ reachable e'.
Proof.
  assert (Hreach : reachable sample_committed) by reach_sample_committed.
  assert (Hfuel : FLOOR_COUNT - 1 ≤ Z.of_nat 5)
    by (unfold FLOOR_COUNT; simpl; lia).
  split; [exact Hreach|]. split; [exact Hfuel|].
  exact (@run_until_stopped_terminates ascending_iteration
           5 sample_committed Hreach Hfuel).
Defined.

Lemma run_until_stopped_is_one_sweep_witness :
  reachable sample_committed
  ∧ FLOOR_COUNT - 1 ≤ Z.of_nat 5
  ∧ ∃ e' delta j,
      run_until_stopped 5 sample_committed = Some (Ok e')
      ∧ (delta = 1 ∨ delta = -1)
      ∧ _current_floor e' = 2 + delta * Z.of_nat j
      ∧ _visited_floors e' = [1; 2] ++ travel 2 delta j
      ∧ (j = 0%nat → same_requests sample_committed e')
      ∧ ((1 ≤ j)%nat →
         pending sample_committed (_current_floor e')
         ∧ served (_current_floor e') sample_committed e').
Proof.
  assert (Hreach : reachable sample_committed) by reach_sample_committed.
  assert (Hfuel : FLOOR_COUNT - 1 ≤ Z.of_nat 5)
    by (unfold FLOOR_COUNT; simpl; lia).
  split; [exact Hreach|]. split; [exact Hfuel|].
  exact (@run_until_stopped_is_one_sweep ascending_iteration
           5 sample_committed Hreach Hfuel).
Defined.

Lemma run_until_stopped_serves_a_floor_witness :
  reachable sample_committed
  ∧ ¬ stuck sample_committed
  ∧ pending sample_committed 5
  ∧ FLOOR_COUNT - 1 ≤ Z.of_nat 5
  ∧ ∃ e',
      run_until_stopped 5 sample_committed = Some (Ok e')
      ∧ _current_floor e' ≠ _current_floor sample_committed
      ∧ _current_floor e' ∈ pending_floors sample_committed
      ∧ pending_floors e'
        = pending_floors sample_committed ∖ {[_current_floor e']}
      ∧ size (pending_floors sample_committed)
        = S (size (pending_floors e'))
      ∧ ¬ stuck e'.
Proof.
  assert (Hreach : reachable sample_committed) by reach_sample_committed.
  assert (Hfree : ¬ stuck sample_committed).
  { intros [Hc _]. discriminate Hc. }
  assert (Hp : pending sample_committed 5).
  { left. unfold destinations. simpl.
    apply elem_of_union_r. by apply elem_of_singleton. }
  assert (Hfuel : FLOOR_COUNT - 1 ≤ Z.of_nat 5)
    by (unfold FLOOR_COUNT; simpl; lia).
  split; [exact Hreach|]. split; [exact Hfree|]. split; [exact Hp|].
  split; [exact Hfuel|].
  exact (@run_until_stopped_serves_a_floor ascending_iteration
           5 sample_committed 5 Hreach Hfree Hp Hfuel).
Defined.

Lemma requests_are_served_unless_stuck_witness :
  reachable sample_committed
  ∧ ¬ stuck sample_committed
  ∧ ∃ k e',
      Z.of_nat k
        ≤ FLOOR_COUNT * Z.of_nat (size (pending_floors sample_committed))
      ∧ run (replicate k Step) sample_committed = Ok e'
      ∧ destinations e' = ∅
      ∧ going_up e' = ∅
      ∧ going_down e' = ∅
      ∧ _motor_direction e' = None
      ∧ commitment e' = None
      ∧ step e' = Ok e'.
Proof.
  assert (Hreach : reachable sample_committed) by reach_sample_committed.
  assert (Hfree : ¬ stuck sample_committed).
  { intros [Hc _]. discriminate Hc. }
  split; [exact Hreach|]. split; [exact Hfree|].
  exact (@requests_are_served_unless_stuck ascending_iteration
           sample_committed Hreach Hfree).
Defined.

Lemma run_until_floor_reaches_the_floor_witness :
  run_until_floor 3 sample_committed = Ok sample_stopped
  ∧ _current_floor sample_stopped = 3
  ∧ ∃ k, (1 ≤ k ≤ 100)%nat
      ∧ run (replicate k Step) sample_committed = Ok sample_stopped
      ∧ ∀ j e1, (1 ≤ j < k)%nat →
          run (replicate j Step) sample_committed = Ok e1 →
          _current_floor e1 ≠ 3.
Proof.
  assert (Hrun : run_until_floor 3 sample_committed = Ok sample_stopped)
    by (vm_compute; reflexivity).
  split; [exact Hrun|].
  exact (@run_until_floor_reaches_the_floor ascending_iteration
           3 sample_committed sample_stopped Hrun).
Defined.

Lemma run_until_floor_fails_out_of_reach_witness :
  reachable sample_committed
  ∧ (¬ (1 ≤ 7 ≤ FLOOR_COUNT)
     ∨ ((∀ f, ¬ pending sample_committed f)
        ∧ 7 ≠ _current_floor sample_committed))
  ∧ run_until_floor 7 sample_committed = Raise AssertionError.
Proof.
  assert (Hreach : reachable sample_committed) by reach_sample_committed.
  assert (Hout : ¬ (1 ≤ 7 ≤ FLOOR_COUNT)
                 ∨ ((∀ f, ¬ pending sample_committed f)
                    ∧ 7 ≠ _current_floor sample_committed)).
  { left. unfold FLOOR_COUNT. lia. }
  split; [exact Hreach|]. split; [exact Hout|].
  exact (@run_until_floor_fails_out_of_reach ascending_iteration
           7 sample_committed Hreach Hout).
Defined.

Lemma stuck_only_by_a_press_at_the_floor_witness :
  reachable (Elevator_init ElevatorLogic_init 1)
  ∧ ¬ stuck (Elevator_init ElevatorLogic_init 1)
  ∧ apply_event (Call 1 (Some UP)) (Elevator_init ElevatorLogic_init 1)
    = Ok (set_requests_going_up {[1]} (Elevator_init ElevatorLogic_init 1))
  ∧ stuck (set_requests_going_up {[1]} (Elevator_init ElevatorLogic_init 1))
  ∧ commitment (Elevator_init ElevatorLogic_init 1) = None
  ∧ _current_floor
      (set_requests_going_up {[1]} (Elevator_init ElevatorLogic_init 1))
    = _current_floor (Elevator_init ElevatorLogic_init 1)
  ∧ ((∃ direction,
        Call 1 (Some UP)
        = Call (_current_floor (Elevator_init ElevatorLogic_init 1)) direction)
     ∨ Call 1 (Some UP)
       = SelectFloor (_current_floor (Elevator_init ElevatorLogic_init 1))).
Proof.
  assert (Hreach : reachable (Elevator_init ElevatorLogic_init 1)).
  { exists 1, []. split; [valid_events|]. split; [valid_events|reflexivity]. }
  assert (Hfree : ¬ stuck (Elevator_init ElevatorLogic_init 1)).
  { intros [_ [Hp|[Hp|Hp]]]; by apply not_elem_of_empty in Hp. }
  assert (Hev :
    apply_event (Call 1 (Some UP)) (Elevator_init ElevatorLogic_init 1)
    = Ok (set_requests_going_up {[1]} (Elevator_init ElevatorLogic_init 1)))
    by (vm_compute; reflexivity).
  assert (Hstuck :
    stuck (set_requests_going_up {[1]} (Elevator_init ElevatorLogic_init 1))).
  { split; [reflexivity|]. right; left.
    change (1 ∈ ({[1]} : gset Z)). by apply elem_of_singleton. }
  split; [exact Hreach|]. split; [exact Hfree|]. split; [exact Hev|].
  split; [exact Hstuck|].
  exact (@stuck_only_by_a_press_at_the_floor ascending_iteration _ _ _
           Hreach Hfree Hev Hstuck).
Defined.

Lemma button_presses_commute_witness :
  is_press (Call 2 (Some UP))
  ∧ is_press (SelectFloor 4)
  ∧ run [Call 2 (Some UP); SelectFloor 4] sample_called
    = run [SelectFloor 4; Call 2 (Some UP)] sample_called
  ∧ run [Call 2 (Some UP); Call 2 (Some UP)] sample_called
    = run [Call 2 (Some UP)] sample_called.
Proof.
  assert (Ha : is_press (Call 2 (Some UP))) by (left; reflexivity).
  assert (Hb : is_press (SelectFloor 4)) by exact I.
  split; [exact Ha|]. split; [exact Hb|].
  exact (@button_presses_commute ascending_iteration _ _ sample_called Ha Hb).
Defined.

Lemma stopped_car_resumes_witness :
  reachable sample_stopped
  ∧ _motor_direction sample_stopped = None
  ∧ step sample_stopped
    = Ok {| _visited_floors := [1; 2; 3];
            _current_floor := 3;
            _motor_direction := Some UP;
            motor_writes := [Some UP; None; Some UP];
            _logic_delegate :=
              {| requested_destinations := {[5]};
                 requests_going_up := ∅;
                 requests_going_down := {[2]};
                 directionality := Some UP |} |}.
Proof.
  assert (Hreach : reachable sample_stopped).
  { exists 1,
      [SelectFloor 3; SelectFloor 5; Call 2 (Some DOWN); Step; Step; Step].
    split; [valid_events|]. split; [valid_events|].
    vm_compute. reflexivity. }
  assert (Hm : _motor_direction sample_stopped = None) by reflexivity.
  split; [exact Hreach|]. split; [exact Hm|].
  exact (@stopped_car_resumes ascending_iteration sample_stopped Hreach Hm).
Defined.

Lemma assertVisits_nothing_means_at_rest_witness :
  reachable sample_stuck
  ∧ FLOOR_COUNT - 1 ≤ Z.of_nat 5
  ∧ (stuck sample_stuck ∨ (∀ f, ¬ pending sample_stuck f)
     ↔ ∃ e', assertVisits 5 [] (clear_visited sample_stuck) = Some (Ok e'))
  ∧ ∀ e', assertVisits 5 [] (clear_visited sample_stuck) = Some (Ok e') →
      _logic_delegate e' = _logic_delegate sample_stuck.
Proof.
  assert (Hreach : reachable sample_stuck).
  { exists 4, [SelectFloor 4; SelectFloor 6].
    split; [valid_events|]. split; [valid_events|].
    vm_compute. reflexivity. }
  assert (Hfuel : FLOOR_COUNT - 1 ≤ Z.of_nat 5)
    by (unfold FLOOR_COUNT; simpl; lia).
  split; [exact Hreach|]. split; [exact Hfuel|].
  exact (@assertVisits_nothing_means_at_rest ascending_iteration
           5 sample_stuck Hreach Hfuel).
Defined.
